(** * goldmark-mathjax: the block-level "$$" parser of block.go

    A shallow embedding of [mathJaxBlockParser] (Open, Continue, Close) and of
    the parts of goldmark's [util], [text] and [parser] packages it calls,
    followed by the properties of the fence state machine.

    Conventions of the embedding.
    - A Go [int] is a [Z].  Every integer the parser computes is an index into
      one line or a source offset plus such an index, so the 64-bit
      wrap-around of [int] is never reached and is not written out.
    - A [[]byte] is a [list byte]; indexing and slicing are fallible, as in Go,
      and a failed bounds check is the outcome [Panic].
    - A [for] loop whose counter is reassigned in its body runs on fuel; the
      outcome [OutOfFuel] belongs to the embedding only and is shown
      unreachable for the fuel the parser passes. *)

From Stdlib Require Import ZArith Strings.Byte Strings.String.
From stdpp Require Import base list gmap.

Local Open Scope Z_scope.

(** ** Outcomes of Go code that may panic *)

Inductive result (A : Type) : Type :=
| Ok (a : A)
| Panic
| OutOfFuel.
Arguments Ok {A} a.
Arguments Panic {A}.
Arguments OutOfFuel {A}.

#[global] Instance result_ret : MRet result := fun A a => Ok a.
#[global] Instance result_bind : MBind result := fun A B f m =>
  match m with
  | Ok a => f a
  | Panic => Panic
  | OutOfFuel => OutOfFuel
  end.

(** ** Byte slices *)

Definition bytes (s : String.string) : list byte := String.list_byte_of_string s.

(** [len(bs)] *)
Definition len (bs : list byte) : Z := Z.of_nat (length bs).

(** [bs[i]]: panics out of range. *)
Definition index (bs : list byte) (i : Z) : result byte :=
  if (0 <=? i) && (i <? len bs)
  then match bs !! Z.to_nat i with Some c => Ok c | None => Panic end
  else Panic.

(** [bs[i:]]: panics unless [0 <= i <= len(bs)]. *)
Definition slice_from (bs : list byte) (i : Z) : result (list byte) :=
  if (0 <=? i) && (i <=? len bs) then Ok (drop (Z.to_nat i) bs) else Panic.

(** [bs[:i]]: panics unless [0 <= i <= len(bs)]. *)
Definition slice_to (bs : list byte) (i : Z) : result (list byte) :=
  if (0 <=? i) && (i <=? len bs) then Ok (take (Z.to_nat i) bs) else Panic.

(** [c == '$'] *)
Definition is_dollar (c : byte) : bool := Byte.eqb c "$"%byte.

(** ** goldmark/util, as far as block.go calls it *)

Module util.

(** [IsSpace]: goldmark's space table marks tab, line feed, carriage return and
    the space character; vertical tab and form feed are not spaces. *)
Definition IsSpace (c : byte) : bool :=
  match c with
  | x09 | x0a | x0d | x20 => true
  | _ => false
  end.

(** [IsBlank]: every byte of the slice is a space character. *)
Fixpoint IsBlank (bs : list byte) : bool :=
  match bs with
  | [] => true
  | b :: bs' => if IsSpace b then IsBlank bs' else false
  end.

(** [TabWidth]: [4 - currentPos%4], with Go's truncated remainder. *)
Definition TabWidth (currentPos : Z) : Z := 4 - Z.rem currentPos 4.

(** The loop of [IndentWidth] over the bytes not yet visited. *)
Fixpoint IndentWidth_loop (bs : list byte) (currentPos width pos : Z) : Z * Z :=
  match bs with
  | [] => (width, pos)
  | b :: bs' =>
      if Byte.eqb b " "%byte then IndentWidth_loop bs' currentPos (width + 1) (pos + 1)
      else if Byte.eqb b x09 then
        IndentWidth_loop bs' currentPos (width + TabWidth (currentPos + width)) (pos + 1)
      else (width, pos)
  end.

(** [IndentWidth(bs, currentPos)]: the width of the leading spaces and tabs
    and the index of the first byte after them. *)
Definition IndentWidth (bs : list byte) (currentPos : Z) : Z * Z :=
  IndentWidth_loop bs currentPos 0 0.

(** The loop of [DedentPosition]: accumulated width [w] and index [i]. *)
Fixpoint DedentPosition_loop (bs : list byte) (currentPos w i : Z) : Z * Z :=
  match bs with
  | [] => (w, i)
  | b :: bs' =>
      if Byte.eqb b x09 then
        DedentPosition_loop bs' currentPos (w + TabWidth (currentPos + w)) (i + 1)
      else if Byte.eqb b " "%byte then DedentPosition_loop bs' currentPos (w + 1) (i + 1)
      else (w, i)
  end.

(** [DedentPosition(bs, currentPos, width)]: position and padding of the line
    once [width] columns of indentation are removed. *)
Definition DedentPosition (bs : list byte) (currentPos width : Z) : Z * Z :=
  if width =? 0 then (0, 0)
  else
    let '(w, i) := DedentPosition_loop bs currentPos 0 0 in
    if width <=? w then (i, w - width) else (i, 0).

End util.

(** ** goldmark/text: segments and the reader *)

Module text.

(** A [Segment] refers to the bytes [Start, Stop) of the source, preceded by
    [Padding] spaces. *)
Record Segment : Type := NewSegmentPadding { Start : Z; Stop : Z; Padding : Z }.

Definition NewSegment (start stop : Z) : Segment := NewSegmentPadding start stop 0.

(** [Segment.Value] for a segment that lies inside the buffer: the padding
    followed by the bytes [Start, Stop) of the source. *)
Definition Value (t : Segment) (buffer : list byte) : list byte :=
  replicate (Z.to_nat (Padding t)) " "%byte
  ++ take (Z.to_nat (Stop t) - Z.to_nat (Start t)) (drop (Z.to_nat (Start t)) buffer).

(** The reader belongs to the host.  The parser peeks the current line and may
    ask the reader to advance; the embedding keeps the peeked line and records
    the requests in the order they were made. *)
Inductive Request : Type :=
| ReqAdvance (n : Z)
| ReqAdvanceAndSetPadding (n padding : Z).

Record Reader : Type := mkReader {
  peekedLine : list byte;
  peekedSegment : Segment;
  requests : list Request
}.

Definition PeekLine (r : Reader) : list byte * Segment := (peekedLine r, peekedSegment r).

Definition Advance (n : Z) (r : Reader) : Reader :=
  mkReader (peekedLine r) (peekedSegment r) (requests r ++ [ReqAdvance n]).

Definition AdvanceAndSetPadding (n padding : Z) (r : Reader) : Reader :=
  mkReader (peekedLine r) (peekedSegment r) (requests r ++ [ReqAdvanceAndSetPadding n padding]).

End text.

(** ** goldmark/parser: states and the parse context *)

(** The per-block state of block.go. *)
Record mathBlockData : Type := mkMathBlockData { indent : Z }.

Module parser.

(** [State] is a set of bit flags. *)
Definition State : Type := Z.
Definition Continue : State := 2.
Definition Close : State := 4.
Definition HasChildren : State := 8.
Definition NoChildren : State := 16.

Definition ContextKey : Type := positive.

(** What the context stores under a key is an [interface{}]: the state of this
    parser or a value of some other type. *)
Inductive ContextValue : Type :=
| MathBlockData (data : mathBlockData)
| Foreign (tag : nat).

(** The context: the entry column of the current line and the key/value store.
    A key that was never set, or was set to [nil], has no entry. *)
Record Context : Type := mkContext {
  BlockOffset : Z;
  store : gmap ContextKey ContextValue
}.

Definition Get (key : ContextKey) (pc : Context) : option ContextValue := store pc !! key.

Definition Set_ (key : ContextKey) (value : option ContextValue) (pc : Context) : Context :=
  mkContext (BlockOffset pc)
    (match value with
     | Some v => <[key := v]> (store pc)
     | None => delete key (store pc)
     end).

End parser.

(** The type assertion of [dataInterface] to a pointer to [mathBlockData]: it
    panics on a value of another type. *)
Definition assert_mathBlockData (v : parser.ContextValue) : result mathBlockData :=
  match v with
  | parser.MathBlockData data => Ok data
  | parser.Foreign _ => Panic
  end.

(** ** The math block node *)

(** Modelled from the spec: the node type [MathBlock] and its constructor
    [NewMathBlock] are declared outside block.go.  The spec's Math Block Node
    owns an ordered sequence of spans, empty when the node is created and
    appended to in document order. *)
Record MathBlock : Type := mkMathBlock { Lines : list text.Segment }.

Definition NewMathBlock : MathBlock := mkMathBlock [].

Definition Append (node : MathBlock) (seg : text.Segment) : MathBlock :=
  mkMathBlock (Lines node ++ [seg]).

(** ** The fence loops of block.go *)

(** Number of leading '$' of a slice. *)
Fixpoint fence_run (bs : list byte) : nat :=
  match bs with
  | c :: bs' => if is_dollar c then S (fence_run bs') else O
  | [] => O
  end.

(** [for ; i < len(line) && line[i] == '$'; i++ {}] started at [i]: the index
    reached.  A negative start passes the length test and panics at the
    access. *)
Definition skip_fence (line : list byte) (i : Z) : result Z :=
  if i <? 0 then Panic
  else Ok (i + Z.of_nat (fence_run (drop (Z.to_nat i) line))).

(** What one iteration of a scanning loop decides. *)
Inductive iteration : Type :=
| Break (closingPos : Z)
| Next (j : Z).

(** Body of the loop of Open (block.go:49-61) and its post statement [j++]. *)
Definition Open_scan_body (remainingLine : list byte) (j : Z) : result iteration :=
  c ← index remainingLine j;
  if is_dollar c then
    k ← skip_fence remainingLine j;
    let closingLen := k - j in
    if 2 <=? closingLen then
      rest ← slice_from remainingLine k;
      if util.IsBlank rest then Ok (Break j) else Ok (Next (k - 1 + 1))
    else Ok (Next (k - 1 + 1))
  else Ok (Next (j + 1)).

(** [for j := 0; j < len(remainingLine)-1; j++ { ... }] of Open
    (block.go:47-62): the value of [closingPos] after the loop. *)
Fixpoint Open_scan (fuel : nat) (remainingLine : list byte) (j : Z) : result Z :=
  match fuel with
  | O => OutOfFuel
  | S fuel' =>
      if j <? len remainingLine - 1 then
        it ← Open_scan_body remainingLine j;
        match it with
        | Break closingPos => Ok closingPos
        | Next j' => Open_scan fuel' remainingLine j'
        end
      else Ok (-1)
  end.

(** Body of the loop of Continue (block.go:119-131) and its post statement. *)
Definition Continue_scan_body (line : list byte) (j : Z) : result iteration :=
  c ← index line j;
  if is_dollar c then
    k ← skip_fence line j;
    let closingLen := k - j in
    if 2 <=? closingLen then
      rest ← slice_from line k;
      if util.IsBlank rest then Ok (Break j) else Ok (Next (k - 1 + 1))
    else Ok (Next (k - 1 + 1))
  else Ok (Next (j + 1)).

(** [for j := 0; j < len(line)-1; j++ { ... }] of Continue (block.go:117-132). *)
Fixpoint Continue_scan (fuel : nat) (line : list byte) (j : Z) : result Z :=
  match fuel with
  | O => OutOfFuel
  | S fuel' =>
      if j <? len line - 1 then
        it ← Continue_scan_body line j;
        match it with
        | Break closingPos => Ok closingPos
        | Next j' => Continue_scan fuel' line j'
        end
      else Ok (-1)
  end.

(** ** The block parser *)

Section mathJaxBlockParser.

(** [var mathBlockInfoKey = parser.NewContextKey()]: some key of the context. *)
Variable mathBlockInfoKey : parser.ContextKey.

(** What Open hands back to the host: the node ([None] for [nil]), the state
    and the context. *)
Definition Open (reader : text.Reader) (pc : parser.Context)
  : result (option MathBlock * parser.State * parser.Context) :=
  let '(line, segment) := text.PeekLine reader in
  let pos := parser.BlockOffset pc in
  if pos =? -1 then Ok (None, parser.NoChildren, pc)
  else if len line <=? pos then Ok (None, parser.NoChildren, pc)
  else
    c ← index line pos;
    if negb (is_dollar c) then Ok (None, parser.NoChildren, pc)
    else
      i ← skip_fence line pos;
      if i - pos <? 2 then Ok (None, parser.NoChildren, pc)
      else
        remainingLine ← slice_from line i;
        closingPos ← Open_scan (S (length remainingLine)) remainingLine 0;
        if 0 <? closingPos then
          let node := NewMathBlock in
          content ← slice_to remainingLine closingPos;
          let node :=
            if 0 <? len content
            then Append node (text.NewSegment (text.Start segment + i)
                                              (text.Start segment + i + closingPos))
            else node in
          Ok (Some node, parser.Close, pc)
        else
          let pc :=
            parser.Set_ mathBlockInfoKey
              (Some (parser.MathBlockData (mkMathBlockData pos))) pc in
          let node := NewMathBlock in
          let node :=
            if (0 <? len remainingLine) && negb (util.IsBlank remainingLine)
            then Append node (text.NewSegment (text.Start segment + i) (text.Stop segment))
            else node in
          Ok (Some node, parser.NoChildren, pc).

(** Lines 102-113 of Continue: is the line a closing fence at its start? *)
Definition closes_at_start (line : list byte) : result bool :=
  let '(w, pos) := util.IndentWidth line 0 in
  if w <? 4 then
    i ← skip_fence line pos;
    let length' := i - pos in
    if 2 <=? length' then
      rest ← slice_from line i;
      Ok (util.IsBlank rest)
    else Ok false
  else Ok false.

(** Lines 115-152 of Continue: the scan of the whole line and what follows. *)
Definition Continue_rescan (data : mathBlockData) (node : MathBlock)
    (reader : text.Reader) (pc : parser.Context)
  : result (parser.State * MathBlock * text.Reader * parser.Context) :=
  let '(line, segment) := text.PeekLine reader in
  closingPos ← Continue_scan (S (length line)) line 0;
  if 0 <=? closingPos then
    let '(pos, padding) := util.DedentPosition line 0 (indent data) in
    let node :=
      if pos <? closingPos
      then
        let contentEnd := text.Start segment + closingPos in
        Append node (text.NewSegmentPadding (text.Start segment + pos) contentEnd padding)
      else node in
    let reader :=
      text.Advance (text.Stop segment - text.Start segment - text.Padding segment) reader in
    Ok (parser.Close, node, reader, pc)
  else
    let '(pos, padding) := util.DedentPosition line 0 (indent data) in
    let seg := text.NewSegmentPadding (text.Start segment + pos) (text.Stop segment) padding in
    let node := Append node seg in
    let reader :=
      text.AdvanceAndSetPadding
        (text.Stop segment - text.Start segment - pos - 1) padding reader in
    Ok (Z.lor parser.Continue parser.NoChildren, node, reader, pc).

(** Continue returns the state and leaves its effects in the node, the reader
    and the context. *)
Definition Continue (node : MathBlock) (reader : text.Reader) (pc : parser.Context)
  : result (parser.State * MathBlock * text.Reader * parser.Context) :=
  let '(line, segment) := text.PeekLine reader in
  match parser.Get mathBlockInfoKey pc with
  | None => Ok (parser.Close, node, reader, pc)
  | Some dataInterface =>
      data ← assert_mathBlockData dataInterface;
      closed ← closes_at_start line;
      if (closed : bool) then
        let reader :=
          text.Advance (text.Stop segment - text.Start segment - text.Padding segment) reader in
        Ok (parser.Close, node, reader, pc)
      else Continue_rescan data node reader pc
  end.

Definition Close (node : MathBlock) (reader : text.Reader) (pc : parser.Context)
  : parser.Context :=
  parser.Set_ mathBlockInfoKey None pc.

Definition CanInterruptParagraph : bool := true.

Definition CanAcceptIndentedLine : bool := false.

End mathJaxBlockParser.

(** ** The host's protocol for one block *)

(** [state & parser.Close != 0] *)
Definition is_closed (state : parser.State) : bool :=
  negb (Z.land state parser.Close =? 0).

(** The lines after the opening one go to Continue, one reader per line, until
    Continue reports Close or the input ends; the result is the node at that
    point. *)
Fixpoint continue_lines (mathBlockInfoKey : parser.ContextKey) (node : MathBlock)
    (pc : parser.Context) (following : list text.Reader) : result MathBlock :=
  match following with
  | [] => Ok node
  | reader :: following' =>
      '(state, node', _, pc') ← Continue mathBlockInfoKey node reader pc;
      if is_closed state then Ok node'
      else continue_lines mathBlockInfoKey node' pc' following'
  end.

(** A block from its first line to its end: Open on the first line and, when
    the node stays open, Continue on the following ones. *)
Definition parse_block (mathBlockInfoKey : parser.ContextKey) (first : text.Reader)
    (following : list text.Reader) (pc : parser.Context) : result (option MathBlock) :=
  '(opened, state, pc') ← Open mathBlockInfoKey first pc;
  match opened with
  | None => Ok None
  | Some node =>
      if is_closed state then Ok (Some node)
      else node' ← continue_lines mathBlockInfoKey node pc' following; Ok (Some node')
  end.

(** ** Vocabulary of the properties *)

(** A closing fence of [line] at [p]: a maximal run of at least two '$' that
    starts at [p] and is followed by blank content only. *)
Definition fence_at (line : list byte) (p : Z) : Prop :=
  exists (pre : list byte) (n : nat) (post : list byte),
    line = pre ++ replicate n "$"%byte ++ post /\
    p = len pre /\ (2 <= n)%nat /\ util.IsBlank post = true /\
    last pre <> Some "$"%byte.

(** The reader the host presents for a line that lies at offset [start] of the
    source, without padding. *)
Definition reader_at (line : list byte) (start : Z) : text.Reader :=
  text.mkReader line (text.NewSegment start (start + len line)) [].

(** Every span of the node starts at or after the source offset [bound]. *)
Definition spans_from (bound : Z) (node : MathBlock) : Prop :=
  Forall (fun seg => bound <= text.Start seg) (Lines node).

(** [Trigger] returns nil: the parser names no trigger bytes and is tried on
    every line. *)
Definition Trigger : list byte := [].

(** ** Vocabulary of the further properties *)

(** The line has no closing fence. *)
Definition no_fence (line : list byte) : Prop := forall p, ~ fence_at line p.

(** The span lies inside the segment of its line, is not reversed and has no
    negative padding. *)
Definition span_within (segment span : text.Segment) : Prop :=
  text.Start segment <= text.Start span /\
  text.Start span <= text.Stop span /\
  text.Stop span <= text.Stop segment /\
  0 <= text.Padding span.

(** The span that covers the whole line of a reader, without padding. *)
Definition line_span (reader : text.Reader) : text.Segment :=
  text.NewSegmentPadding (text.Start (text.peekedSegment reader))
    (text.Stop (text.peekedSegment reader)) 0.


(** ** Slices seen from a split of the line *)

Lemma len_nonneg (bs : list byte) : 0 <= len bs.
Proof. unfold len. lia. Qed.

Lemma len_app (xs ys : list byte) : len (xs ++ ys) = len xs + len ys.
Proof. unfold len. rewrite length_app. lia. Qed.

Lemma len_cons (c : byte) (bs : list byte) : len (c :: bs) = 1 + len bs.
Proof. unfold len. simpl. lia. Qed.

Lemma index_app_here (done : list byte) (c : byte) (rest : list byte) :
  index (done ++ c :: rest) (len done) = Ok c.
Proof.
  unfold index. rewrite len_app, len_cons.
  pose proof (len_nonneg done). pose proof (len_nonneg rest).
  destruct (Z.leb_spec 0 (len done)); [|lia].
  destruct (Z.ltb_spec (len done) (len done + (1 + len rest))); [|lia].
  simpl. unfold len. rewrite Nat2Z.id.
  by rewrite list_lookup_middle.
Qed.

Lemma slice_from_app (done todo : list byte) (n : nat) :
  (n <= length todo)%nat ->
  slice_from (done ++ todo) (len done + Z.of_nat n) = Ok (drop n todo).
Proof.
  intros Hn. unfold slice_from. rewrite len_app.
  pose proof (len_nonneg done).
  destruct (Z.leb_spec 0 (len done + Z.of_nat n)); [|lia].
  destruct (Z.leb_spec (len done + Z.of_nat n) (len done + len todo));
    [|unfold len in *; lia].
  simpl. f_equal. unfold len.
  replace (Z.to_nat (Z.of_nat (length done) + Z.of_nat n)) with (length done + n)%nat by lia.
  by rewrite drop_app_add.
Qed.

Lemma skip_fence_app (done todo : list byte) :
  skip_fence (done ++ todo) (len done) = Ok (len done + Z.of_nat (fence_run todo)).
Proof.
  unfold skip_fence. pose proof (len_nonneg done).
  destruct (Z.ltb_spec (len done) 0); [lia|].
  unfold len. rewrite Nat2Z.id. by rewrite drop_app_length.
Qed.

Lemma fence_run_le (bs : list byte) : (fence_run bs <= length bs)%nat.
Proof. induction bs as [|c bs IH]; simpl; [lia|]. destruct (is_dollar c); simpl; lia. Qed.

Lemma is_dollar_true (c : byte) : is_dollar c = true <-> c = "$"%byte.
Proof.
  unfold is_dollar. split.
  - apply Byte.byte_dec_bl.
  - apply Byte.byte_dec_lb.
Qed.

Lemma is_dollar_false (c : byte) : is_dollar c = false <-> c <> "$"%byte.
Proof.
  rewrite <- is_dollar_true. destruct (is_dollar c); split; congruence.
Qed.

Lemma fence_run_replicate (n : nat) (post : list byte) :
  fence_run (replicate n "$"%byte ++ post) = (n + fence_run post)%nat.
Proof. induction n as [|n IH]; simpl; [done|]. by rewrite IH. Qed.

Lemma IsBlank_app (xs ys : list byte) :
  util.IsBlank (xs ++ ys) = util.IsBlank xs && util.IsBlank ys.
Proof.
  induction xs as [|c xs IH]; simpl; [done|].
  destruct (util.IsSpace c); [exact IH|done].
Qed.

Lemma IsBlank_fence_run (bs : list byte) : util.IsBlank bs = true -> fence_run bs = O.
Proof.
  destruct bs as [|c bs]; simpl; [done|].
  destruct (is_dollar c) eqn:Hc; [|done].
  apply is_dollar_true in Hc. by subst c.
Qed.

Lemma IsBlank_dollar (xs ys : list byte) :
  util.IsBlank (xs ++ "$"%byte :: ys) = false.
Proof. rewrite IsBlank_app. simpl. apply andb_false_r. Qed.

(** The run of a slice that does not end in '$' stops inside the slice. *)
Lemma fence_run_inside (mid rest : list byte) :
  mid <> [] -> last mid <> Some "$"%byte ->
  fence_run (mid ++ rest) = fence_run mid /\ (fence_run mid < length mid)%nat.
Proof.
  induction mid as [|c mid IH]; [done|]. intros _ Hlast. simpl.
  destruct (is_dollar c) eqn:Hc; [|simpl; lia].
  apply is_dollar_true in Hc. subst c.
  destruct mid as [|d mid]; [done|].
  destruct IH as [IH1 IH2]; [done|exact Hlast|].
  rewrite IH1. split; [done|]. simpl in *. lia.
Qed.

(** ** The scanning loops, iteration by iteration *)

Lemma bind_Ok {A B : Type} (a : A) (f : A -> result B) : (Ok a ≫= f) = f a.
Proof. reflexivity. Qed.

(** The two loop bodies are the same function. *)
Lemma scan_body_agree (line : list byte) (j : Z) :
  Continue_scan_body line j = Open_scan_body line j.
Proof. reflexivity. Qed.

(** The two loops are the same function. *)
Lemma scan_agree (fuel : nat) (line : list byte) (j : Z) :
  Continue_scan fuel line j = Open_scan fuel line j.
Proof.
  revert j. induction fuel as [|fuel IH]; intros j; simpl; [done|].
  destruct (j <? len line - 1); [|done].
  rewrite scan_body_agree.
  destruct (Open_scan_body line j) as [[p|j']| |]; simpl; auto.
Qed.

(** One iteration at the split [done ++ c :: rest], in terms of what is left
    of the line. *)
Lemma Open_scan_body_app (done : list byte) (c : byte) (rest : list byte) :
  Open_scan_body (done ++ c :: rest) (len done) =
  if is_dollar c then
    let r := fence_run (c :: rest) in
    if (2 <=? Z.of_nat r) && util.IsBlank (drop r (c :: rest))
    then Ok (Break (len done))
    else Ok (Next (len done + Z.of_nat r))
  else Ok (Next (len done + 1)).
Proof.
  unfold Open_scan_body. rewrite index_app_here, bind_Ok.
  destruct (is_dollar c) eqn:Hc; [|done].
  rewrite skip_fence_app, bind_Ok. cbv zeta.
  replace (len done + Z.of_nat (fence_run (c :: rest)) - len done)
    with (Z.of_nat (fence_run (c :: rest))) by lia.
  replace (len done + Z.of_nat (fence_run (c :: rest)) - 1 + 1)
    with (len done + Z.of_nat (fence_run (c :: rest))) by lia.
  destruct (2 <=? Z.of_nat (fence_run (c :: rest))); [|done].
  rewrite slice_from_app by apply fence_run_le. rewrite bind_Ok.
  by destruct (util.IsBlank _).
Qed.

(** The loop test at a split. *)
Lemma scan_cond_app (done todo : list byte) :
  (len done <? len (done ++ todo) - 1) = (1 <? len todo).
Proof.
  rewrite len_app.
  destruct (Z.ltb_spec (len done) (len done + len todo - 1));
    destruct (Z.ltb_spec 1 (len todo)); lia.
Qed.

(** Totality: with more fuel than bytes left, the loop returns not found or a
    position at or after its start and inside the line. *)
Lemma Open_scan_total (fuel : nat) (done todo : list byte) :
  (length todo < fuel)%nat ->
  exists p, Open_scan fuel (done ++ todo) (len done) = Ok p /\
            (p = -1 \/ len done <= p < len (done ++ todo)).
Proof.
  revert done todo. induction fuel as [|fuel IH]; intros done todo Hfuel; [lia|].
  simpl. rewrite scan_cond_app.
  destruct (Z.ltb_spec 1 (len todo)) as [Hlen|Hlen]; [|eauto].
  destruct todo as [|c rest]; [unfold len in Hlen; simpl in Hlen; lia|].
  rewrite Open_scan_body_app.
  destruct (is_dollar c) eqn:Hc.
  - cbv zeta. set (r := fence_run (c :: rest)).
    destruct ((2 <=? Z.of_nat r) && util.IsBlank (drop r (c :: rest))).
    + rewrite bind_Ok. exists (len done). split; [done|]. rewrite len_app. lia.
    + rewrite bind_Ok.
      assert (Hr : (1 <= r <= length (c :: rest))%nat).
      { split; [|apply fence_run_le]. subst r. simpl. rewrite Hc. lia. }
      destruct (IH (done ++ take r (c :: rest)) (drop r (c :: rest))) as (p & Hp & Hq).
      { rewrite length_drop. simpl in *. lia. }
      assert (Htake : len (take r (c :: rest)) = Z.of_nat r).
      { unfold len. rewrite length_take. lia. }
      rewrite <- (assoc_L (++)), take_drop, len_app, Htake in Hp.
      exists p. split; [exact Hp|].
      rewrite <- (assoc_L (++)), take_drop, len_app, Htake in Hq. lia.
  - rewrite bind_Ok.
    destruct (IH (done ++ [c]) rest) as (p & Hp & Hq); [simpl in Hfuel; lia|].
    rewrite <- (assoc_L (++)), len_app in Hp. change (len [c]) with 1 in Hp.
    exists p. split; [exact Hp|].
    rewrite <- (assoc_L (++)), len_app in Hq. change (len [c]) with 1 in Hq.
    change ([c] ++ rest) with (c :: rest) in Hq. lia.
Qed.

(** The loop stops at the fence that lies ahead of it. *)
Lemma Open_scan_finds (fuel : nat) (done mid : list byte) (n : nat) (post : list byte) :
  (2 <= n)%nat -> util.IsBlank post = true ->
  mid = [] \/ last mid <> Some "$"%byte ->
  (length (mid ++ replicate n "$"%byte ++ post) < fuel)%nat ->
  Open_scan fuel (done ++ mid ++ replicate n "$"%byte ++ post) (len done)
  = Ok (len done + len mid).
Proof.
  intros Hn Hpost. revert done mid.
  induction fuel as [|fuel IH]; intros done mid Hmid Hfuel; [lia|].
  simpl. rewrite scan_cond_app.
  assert (Hlen : 1 < len (mid ++ replicate n "$"%byte ++ post)).
  { unfold len. rewrite !length_app, length_replicate. lia. }
  destruct (Z.ltb_spec 1 (len (mid ++ replicate n "$"%byte ++ post))); [|lia].
  destruct mid as [|c mid].
  - destruct n as [|n]; [lia|].
    change (done ++ [] ++ replicate (S n) "$"%byte ++ post)
      with (done ++ "$"%byte :: (replicate n "$"%byte ++ post)).
    rewrite Open_scan_body_app.
    change (is_dollar "$") with true. cbv iota zeta.
    change ("$"%byte :: replicate n "$"%byte ++ post)
      with (replicate (S n) "$"%byte ++ post).
    rewrite fence_run_replicate, (IsBlank_fence_run post Hpost), Nat.add_0_r.
    rewrite drop_app_length' by (by rewrite length_replicate).
    rewrite Hpost.
    destruct (Z.leb_spec 2 (Z.of_nat (S n))); [|lia].
    simpl. f_equal. unfold len. simpl. lia.
  - destruct Hmid as [Hmid|Hmid]; [done|].
    change (done ++ (c :: mid) ++ replicate n "$"%byte ++ post)
      with (done ++ c :: (mid ++ replicate n "$"%byte ++ post)).
    rewrite Open_scan_body_app.
    destruct (is_dollar c) eqn:Hc.
    + cbv zeta.
      change (c :: mid ++ replicate n "$"%byte ++ post)
        with ((c :: mid) ++ replicate n "$"%byte ++ post).
      destruct (fence_run_inside (c :: mid) (replicate n "$"%byte ++ post))
        as [Hrun Hlt]; [done|exact Hmid|].
      rewrite Hrun. set (r := fence_run (c :: mid)) in *.
      assert (Hr : (1 <= r)%nat) by (subst r; simpl; rewrite Hc; lia).
      rewrite drop_app_le by lia.
      assert (Hnb : util.IsBlank (drop r (c :: mid) ++ replicate n "$"%byte ++ post) = false).
      { destruct n as [|n]; [lia|]. apply IsBlank_dollar. }
      rewrite Hnb, andb_false_r, bind_Ok.
      assert (Hsplit : c :: mid = take r (c :: mid) ++ drop r (c :: mid))
        by (by rewrite take_drop).
      assert (Hnil : drop r (c :: mid) <> []).
      { intros E. apply (f_equal length) in E. rewrite length_drop in E.
        change (length (@nil byte)) with O in E. lia. }
      specialize (IH (done ++ take r (c :: mid)) (drop r (c :: mid))).
      rewrite <- !(assoc_L (++)), (assoc_L (++) (take r (c :: mid))), <- Hsplit in IH.
      assert (Htake : len (take r (c :: mid)) = Z.of_nat r).
      { unfold len. rewrite length_take. lia. }
      assert (Hsum : len (c :: mid) = Z.of_nat r + len (drop r (c :: mid))).
      { rewrite Hsplit at 1. by rewrite len_app, Htake. }
      rewrite len_app, Htake in IH.
      rewrite IH.
      * f_equal. lia.
      * right. intros Hl. apply Hmid. rewrite Hsplit, last_app, Hl. done.
      * rewrite !length_app in *. rewrite length_drop. simpl in *. lia.
    + rewrite bind_Ok.
      specialize (IH (done ++ [c]) mid).
      rewrite <- (assoc_L (++)), len_app in IH. simpl in IH.
      change (len [c]) with 1 in IH.
      rewrite IH.
      * f_equal. rewrite len_cons. lia.
      * destruct mid as [|d mid]; [by left|right]. by rewrite last_cons_cons in Hmid.
      * simpl in Hfuel. lia.
Qed.

(** The scan of a whole line reports the closing fence of the line. *)
Lemma Open_scan_fence_at (line : list byte) (p : Z) :
  fence_at line p -> Open_scan (S (length line)) line 0 = Ok p.
Proof.
  intros (pre & n & post & -> & -> & Hn & Hpost & Hlast).
  exact (Open_scan_finds (S (length (pre ++ replicate n "$"%byte ++ post)))
           [] pre n post Hn Hpost (or_intror Hlast) (Nat.lt_succ_diag_r _)).
Qed.

Lemma fence_run_head (bs : list byte) : fence_run bs = O -> head bs <> Some "$"%byte.
Proof.
  destruct bs as [|c bs]; simpl; [done|].
  destruct (is_dollar c) eqn:Hc; [done|].
  intros _ [= ->]. done.
Qed.

Lemma fence_run_unfold (bs : list byte) :
  bs = replicate (fence_run bs) "$"%byte ++ drop (fence_run bs) bs /\
  fence_run (drop (fence_run bs) bs) = O.
Proof.
  induction bs as [|c bs [IH1 IH2]]; simpl; [done|].
  destruct (is_dollar c) eqn:Hc; simpl.
  - apply is_dollar_true in Hc. subst c. split; [by f_equal|done].
  - by rewrite Hc.
Qed.

(** A position the loop reports is a closing fence of the line, provided the
    loop did not start inside a run of '$'. *)
Lemma Open_scan_sound (fuel : nat) (done todo : list byte) (p : Z) :
  last done <> Some "$"%byte \/ head todo <> Some "$"%byte ->
  Open_scan fuel (done ++ todo) (len done) = Ok p -> 0 <= p ->
  fence_at (done ++ todo) p.
Proof.
  revert done todo. induction fuel as [|fuel IH]; intros done todo Hinv; simpl; [discriminate|].
  rewrite scan_cond_app.
  destruct (Z.ltb_spec 1 (len todo)) as [Hlen|Hlen]; [|intros [= <-]; lia].
  destruct todo as [|c rest]; [change (len []) with 0 in Hlen; lia|].
  rewrite Open_scan_body_app.
  destruct (is_dollar c) eqn:Hc.
  - apply is_dollar_true in Hc. subst c. cbv zeta.
    destruct (fence_run_unfold ("$"%byte :: rest)) as [Hsplit Hrest].
    revert Hsplit Hrest.
    generalize (fence_run ("$"%byte :: rest)). intros r Hsplit Hrest.
    destruct (Z.leb_spec 2 (Z.of_nat r)) as [Hr|Hr]; cbn [andb].
    + destruct (util.IsBlank (drop r ("$"%byte :: rest))) eqn:Hblank.
      * rewrite bind_Ok. intros [= <-] _. exists done, r, (drop r ("$"%byte :: rest)).
        rewrite <- Hsplit. repeat split; [lia|exact Hblank|].
        destruct Hinv as [Hinv|Hinv]; done.
      * rewrite bind_Ok. intros Hscan Hp.
        rewrite Hsplit at 1. rewrite (assoc_L (++)).
        apply IH; [right; by apply fence_run_head| |exact Hp].
        rewrite <- (assoc_L (++)), <- Hsplit, len_app.
        unfold len at 2. rewrite length_replicate. exact Hscan.
    + rewrite bind_Ok. intros Hscan Hp.
      rewrite Hsplit at 1. rewrite (assoc_L (++)).
      apply IH; [right; by apply fence_run_head| |exact Hp].
      rewrite <- (assoc_L (++)), <- Hsplit, len_app.
      unfold len at 2. rewrite length_replicate. exact Hscan.
  - rewrite bind_Ok. intros Hscan Hp.
    change (done ++ c :: rest) with (done ++ [c] ++ rest). rewrite (assoc_L (++)).
    apply IH; [left| |exact Hp].
    + rewrite last_snoc. intros [= ->]. done.
    + rewrite <- (assoc_L (++)), len_app. exact Hscan.
Qed.

(** The scan of a whole line finds exactly the closing fence of the line. *)
Lemma Open_scan_spec (line : list byte) (p : Z) :
  fence_at line p <-> Open_scan (S (length line)) line 0 = Ok p /\ 0 <= p.
Proof.
  split.
  - intros Hfence. split; [by apply Open_scan_fence_at|].
    destruct Hfence as (pre & _ & _ & _ & -> & _). apply len_nonneg.
  - intros [Hscan Hp]. by apply (Open_scan_sound (S (length line)) [] line p); [left|..].
Qed.

(** ** goldmark/util: positions stay inside the line *)

Lemma IndentWidth_loop_pos (bs : list byte) (currentPos width pos w p : Z) :
  util.IndentWidth_loop bs currentPos width pos = (w, p) ->
  pos <= p <= pos + len bs.
Proof.
  revert width pos. induction bs as [|b bs IH]; intros width pos; simpl.
  - intros [= _ <-]. unfold len. simpl. lia.
  - rewrite len_cons. pose proof (len_nonneg bs) as Hbs.
    destruct (Byte.eqb b " "); [intros H%IH; lia|].
    destruct (Byte.eqb b x09); [intros H%IH; lia|].
    intros [= _ <-]. lia.
Qed.

Lemma IndentWidth_pos (bs : list byte) (currentPos w p : Z) :
  util.IndentWidth bs currentPos = (w, p) -> 0 <= p <= len bs.
Proof. intros H%IndentWidth_loop_pos. lia. Qed.

Lemma DedentPosition_loop_pos (bs : list byte) (currentPos w i w' i' : Z) :
  util.DedentPosition_loop bs currentPos w i = (w', i') -> i <= i'.
Proof.
  revert w i. induction bs as [|b bs IH]; intros w i; simpl.
  - intros [= _ <-]. lia.
  - destruct (Byte.eqb b x09); [intros H%IH; lia|].
    destruct (Byte.eqb b " "); [intros H%IH; lia|].
    intros [= _ <-]. lia.
Qed.

Lemma DedentPosition_pos (bs : list byte) (currentPos width pos padding : Z) :
  util.DedentPosition bs currentPos width = (pos, padding) -> 0 <= pos.
Proof.
  unfold util.DedentPosition. destruct (width =? 0); [intros [= <- _]; lia|].
  destruct (util.DedentPosition_loop bs currentPos 0 0) as [w i] eqn:Hloop.
  apply DedentPosition_loop_pos in Hloop.
  destruct (width <=? w); intros [= <- _]; lia.
Qed.

(** ** Slices seen from an index *)

Lemma split_at (line : list byte) (i : Z) :
  0 <= i <= len line ->
  line = take (Z.to_nat i) line ++ drop (Z.to_nat i) line /\
  len (take (Z.to_nat i) line) = i.
Proof.
  intros Hi. split; [by rewrite take_drop|].
  unfold len in *. rewrite length_take. lia.
Qed.

Lemma slice_to_app (done todo : list byte) :
  slice_to (done ++ todo) (len done) = Ok done.
Proof.
  unfold slice_to. rewrite len_app.
  pose proof (len_nonneg done). pose proof (len_nonneg todo).
  destruct (Z.leb_spec 0 (len done)); [|lia].
  destruct (Z.leb_spec (len done) (len done + len todo)); [|lia].
  simpl. unfold len. rewrite Nat2Z.id. by rewrite take_app_length.
Qed.

(** The scan reports not found or a position inside the line. *)
Lemma Open_scan_range (line : list byte) :
  exists p, Open_scan (S (length line)) line 0 = Ok p /\ (p = -1 \/ 0 <= p < len line).
Proof.
  destruct (Open_scan_total (S (length line)) [] line) as (p & Hp & Hq); [lia|].
  exists p. split; [exact Hp|]. simpl in Hq. change (len []) with 0 in Hq. tauto.
Qed.

(** ** Open, once the entry column holds a run of '$' *)

Lemma Open_at_run (key : parser.ContextKey) (reader : text.Reader) (pc : parser.Context)
    (done : list byte) (n : nat) (rest : list byte) :
  text.peekedLine reader = done ++ replicate n "$"%byte ++ rest ->
  parser.BlockOffset pc = len done ->
  (1 <= n)%nat -> fence_run rest = O ->
  Open key reader pc =
  if Z.of_nat n <? 2 then Ok (None, parser.NoChildren, pc)
  else
    closingPos ← Open_scan (S (length rest)) rest 0;
    let i := len done + Z.of_nat n in
    let segment := text.peekedSegment reader in
    if 0 <? closingPos then
      content ← slice_to rest closingPos;
      Ok (Some (if 0 <? len content
                then Append NewMathBlock
                       (text.NewSegment (text.Start segment + i)
                                        (text.Start segment + i + closingPos))
                else NewMathBlock),
          parser.Close, pc)
    else
      Ok (Some (if (0 <? len rest) && negb (util.IsBlank rest)
                then Append NewMathBlock
                       (text.NewSegment (text.Start segment + i) (text.Stop segment))
                else NewMathBlock),
          parser.NoChildren,
          parser.Set_ key (Some (parser.MathBlockData (mkMathBlockData (len done)))) pc).
Proof.
  intros Hline Hpos Hn Hrest. unfold Open, text.PeekLine. rewrite Hline, Hpos.
  pose proof (len_nonneg done) as Hdone.
  destruct (Z.eqb_spec (len done) (-1)); [lia|].
  rewrite len_app, len_app. unfold len at 2. rewrite length_replicate.
  pose proof (len_nonneg rest) as Hlrest.
  destruct (Z.leb_spec (len done + (Z.of_nat n + len rest)) (len done)); [lia|].
  destruct n as [|m]; [lia|].
  change (replicate (S m) "$"%byte ++ rest) with ("$"%byte :: (replicate m "$"%byte ++ rest)).
  rewrite index_app_here, bind_Ok.
  change (negb (is_dollar "$")) with false. cbv iota.
  change ("$"%byte :: (replicate m "$"%byte ++ rest)) with (replicate (S m) "$"%byte ++ rest).
  rewrite skip_fence_app, bind_Ok, fence_run_replicate, Hrest, Nat.add_0_r.
  replace (len done + Z.of_nat (S m) - len done) with (Z.of_nat (S m)) by lia.
  destruct (Z.of_nat (S m) <? 2); [done|].
  rewrite <- (Nat.add_0_r (S m)) at 2.
  rewrite slice_from_app by (rewrite length_app, length_replicate; lia).
  rewrite Nat.add_0_r, drop_app_length' by (by rewrite length_replicate).
  rewrite bind_Ok. done.
Qed.

(** ** The parse context *)

Lemma Get_Set_value (key : parser.ContextKey) (v : parser.ContextValue) (pc : parser.Context) :
  parser.Get key (parser.Set_ key (Some v) pc) = Some v.
Proof. unfold parser.Get, parser.Set_. simpl. apply lookup_insert_eq. Qed.

Lemma Get_Set_nil (key : parser.ContextKey) (pc : parser.Context) :
  parser.Get key (parser.Set_ key None pc) = None.
Proof. unfold parser.Get, parser.Set_. simpl. apply lookup_delete_eq. Qed.

(** ** Properties of Open *)

(** C1.  The line of four '$' is not classified same-line.  Open counts all
    four characters as the opening run, so the remainder is empty and holds no
    closing fence: Open records the per-block state and returns an open node
    without spans and with the state NoChildren, which lacks the Close flag.
    In the source "$$$$\nx" the second line is then consumed as content of
    the block. *)
Theorem Open_four_dollars_stays_open (key : parser.ContextKey)
    (store : gmap parser.ContextKey parser.ContextValue) :
  let pc := parser.mkContext 0 store in
  Open key (reader_at (bytes "$$$$") 0) pc
  = Ok (Some NewMathBlock, parser.NoChildren,
        parser.Set_ key (Some (parser.MathBlockData (mkMathBlockData 0))) pc)
  /\ is_closed parser.NoChildren = false
  /\ parse_block key (reader_at (bytes "$$$$" ++ [x0a]) 0) [reader_at (bytes "x") 5] pc
     = Ok (Some (mkMathBlock [text.NewSegmentPadding 5 6 0])).
Proof.
  intros pc.
  assert (HOpen : forall tail, tail = [] \/ tail = [x0a] ->
            Open key (reader_at (bytes "$$$$" ++ tail) 0) pc
            = Ok (Some NewMathBlock, parser.NoChildren,
                  parser.Set_ key (Some (parser.MathBlockData (mkMathBlockData 0))) pc)).
  { intros tail Htail.
    rewrite (Open_at_run key _ pc [] 4 tail); [|first [reflexivity|lia|idtac]..].
    - by destruct Htail as [-> | ->].
    - by destruct Htail as [-> | ->]. }
  split; [apply (HOpen []); by left|]. split; [reflexivity|].
  unfold parse_block. rewrite (HOpen [x0a]), bind_Ok by (by right). cbv iota beta.
  change (is_closed parser.NoChildren) with false. cbv iota.
  unfold continue_lines, Continue. rewrite Get_Set_value. reflexivity.
Qed.

(** C2, as claimed, fails where the payload touches a fence: for C = "$x" the
    opening run takes the first byte of C, and for C = "x$" the closing run
    starts one byte early.  Neither C contains a blank-terminated fence run,
    and in both cases the span reads "x". *)
Lemma Open_same_line_payload_counterexample :
  (forall p, ~ fence_at (bytes "$x") p) /\ (forall p, ~ fence_at (bytes "x$") p) /\
  Open 1%positive (reader_at (bytes "$$" ++ bytes "$x" ++ bytes "$$") 0) (parser.mkContext 0 ∅)
  = Ok (Some (mkMathBlock [text.NewSegment 3 4]), parser.Close, parser.mkContext 0 ∅) /\
  text.Value (text.NewSegment 3 4) (bytes "$$" ++ bytes "$x" ++ bytes "$$") = bytes "x" /\
  Open 1%positive (reader_at (bytes "$$" ++ bytes "x$" ++ bytes "$$") 0) (parser.mkContext 0 ∅)
  = Ok (Some (mkMathBlock [text.NewSegment 2 3]), parser.Close, parser.mkContext 0 ∅) /\
  text.Value (text.NewSegment 2 3) (bytes "$$" ++ bytes "x$" ++ bytes "$$") = bytes "x" /\
  bytes "x" <> bytes "$x" /\ bytes "x" <> bytes "x$".
Proof.
  assert (Hno : forall C, Open_scan (S (length C)) C 0 = Ok (-1) -> forall p, ~ fence_at C p).
  { intros C Hscan p Hp. pose proof Hp as (pre & _ & _ & _ & -> & _).
    apply Open_scan_fence_at in Hp. rewrite Hscan in Hp.
    pose proof (len_nonneg pre). injection Hp as Hp. lia. }
  repeat split; try (apply Hno; reflexivity); try reflexivity; discriminate.
Qed.

(** C2, amended.  For a payload C that is not empty and neither begins nor
    ends with '$', Open on the line "$$C$$" entered at column 0 returns a
    closed node with exactly one span, and the bytes of the source under that
    span are C. *)
Theorem Open_same_line_payload (key : parser.ContextKey) (before C after : list byte)
    (store : gmap parser.ContextKey parser.ContextValue) :
  C <> [] -> head C <> Some "$"%byte -> last C <> Some "$"%byte ->
  let line := bytes "$$" ++ C ++ bytes "$$" in
  let source := before ++ line ++ after in
  let pc := parser.mkContext 0 store in
  exists span,
    Open key (reader_at line (len before)) pc
    = Ok (Some (mkMathBlock [span]), parser.Close, pc)
    /\ text.Value span source = C.
Proof.
  intros Hne Hhead Hlast line source pc.
  assert (Hrun : fence_run (C ++ bytes "$$") = O).
  { destruct C as [|c C]; [done|]. simpl.
    destruct (is_dollar c) eqn:Hc; [|done].
    apply is_dollar_true in Hc. by subst c. }
  assert (Hscan : Open_scan (S (length (C ++ bytes "$$"))) (C ++ bytes "$$") 0 = Ok (len C)).
  { apply Open_scan_fence_at. exists C, 2%nat, []. rewrite app_nil_r. by repeat split. }
  assert (Hpos : 0 < len C).
  { destruct C; [done|]. rewrite len_cons. pose proof (len_nonneg C). lia. }
  exists (text.NewSegment (len before + 2) (len before + 2 + len C)). split.
  - rewrite (Open_at_run key _ pc [] 2 (C ++ bytes "$$")); [|first [reflexivity|lia|assumption]..].
    change (Z.of_nat 2 <? 2) with false. cbv iota.
    rewrite Hscan, bind_Ok. cbv zeta.
    destruct (Z.ltb_spec 0 (len C)); [|lia].
    rewrite slice_to_app, bind_Ok.
    destruct (Z.ltb_spec 0 (len C)); [|lia].
    reflexivity.
  - unfold text.Value, source, line. simpl.
    pose proof (len_nonneg before). pose proof (len_nonneg C).
    replace (Z.to_nat (len before + 2)) with (length before + 2)%nat by (unfold len; lia).
    replace (Z.to_nat (len before + 2 + len C) - (length before + 2))%nat
      with (length C) by (unfold len; lia).
    rewrite drop_app_add. simpl. by rewrite drop_0, <- (assoc_L (++)), take_app_length.
Qed.

(** Open refuses a line whose entry column is -1, is not inside the line, or
    holds a byte other than '$'. *)
Lemma Open_refuses (key : parser.ContextKey) (reader : text.Reader) (pc : parser.Context) :
  parser.BlockOffset pc = -1 \/
  len (text.peekedLine reader) <= parser.BlockOffset pc \/
  (exists c, index (text.peekedLine reader) (parser.BlockOffset pc) = Ok c /\ c <> "$"%byte) ->
  Open key reader pc = Ok (None, parser.NoChildren, pc).
Proof.
  intros H. unfold Open, text.PeekLine.
  destruct (Z.eqb_spec (parser.BlockOffset pc) (-1)); [done|].
  destruct (Z.leb_spec (len (text.peekedLine reader)) (parser.BlockOffset pc)); [done|].
  destruct H as [H|[H|(c & Hc & Hne)]]; [lia..|].
  rewrite Hc, bind_Ok. apply is_dollar_false in Hne. by rewrite Hne.
Qed.

(** C5.  Open creates no node and leaves the context alone when the entry
    column is -1, when it lies at or past the end of the line, and when the
    byte at the column is not '$'.  The outcome is a returned value, so the
    access to the line stays in bounds. *)
Theorem Open_not_applicable (key : parser.ContextKey) (reader : text.Reader)
    (pc : parser.Context) :
  parser.BlockOffset pc = -1 \/
  len (text.peekedLine reader) <= parser.BlockOffset pc \/
  (exists c, index (text.peekedLine reader) (parser.BlockOffset pc) = Ok c /\ c <> "$"%byte) ->
  Open key reader pc = Ok (None, parser.NoChildren, pc).
Proof. apply Open_refuses. Qed.

(** ** Properties of Continue and Close *)


(** C4.  Without per-block state Continue reports Close and returns the node,
    the reader and the context as it received them: no span is appended and
    no request reaches the reader. *)
Theorem Continue_state_absent (key : parser.ContextKey) (node : MathBlock)
    (reader : text.Reader) (pc : parser.Context) :
  parser.Get key pc = None ->
  Continue key node reader pc = Ok (parser.Close, node, reader, pc).
Proof. intros H. unfold Continue, text.PeekLine. by rewrite H. Qed.



(** C9.  After Close the key of the per-block state has no entry in the
    context, the other keys keep theirs, and a Continue that runs on this
    context, for any node and line, takes the absent-state exit. *)
Theorem Close_clears_state (key : parser.ContextKey) (node : MathBlock)
    (reader : text.Reader) (pc : parser.Context) :
  parser.Get key (Close key node reader pc) = None
  /\ (forall other, other <> key ->
        parser.Get other (Close key node reader pc) = parser.Get other pc)
  /\ (forall node' reader',
        Continue key node' reader' (Close key node reader pc)
        = Ok (parser.Close, node', reader', Close key node reader pc)).
Proof.
  assert (Hnil : parser.Get key (Close key node reader pc) = None) by apply Get_Set_nil.
  split; [exact Hnil|]. split.
  - intros other Hother. unfold Close, parser.Get, parser.Set_. simpl.
    by apply lookup_delete_ne.
  - intros node' reader'. unfold Continue, text.PeekLine. by rewrite Hnil.
Qed.

(** The test of lines 102-113 always returns. *)
Lemma closes_at_start_total (line : list byte) : exists b, closes_at_start line = Ok b.
Proof.
  unfold closes_at_start.
  destruct (util.IndentWidth line 0) as [w pos] eqn:Hindent.
  destruct (w <? 4); [|eauto].
  destruct (split_at line pos (IndentWidth_pos _ _ _ _ Hindent)) as [Hsplit Hlen].
  clear Hindent. revert Hsplit Hlen.
  generalize (take (Z.to_nat pos) line) (drop (Z.to_nat pos) line).
  intros done todo -> <-.
  rewrite skip_fence_app, bind_Ok.
  destruct (2 <=? _); [|eauto].
  rewrite slice_from_app by apply fence_run_le. rewrite bind_Ok. eauto.
Qed.

(** C3, as claimed, fails on a line that the start-of-line test closes first:
    with the baseline 0 the line " $$" has its closing fence at position 1,
    after the dedented start 0, and Continue closes without appending. *)
Lemma Continue_rescan_counterexample :
  fence_at (bytes " $$") 1
  /\ util.DedentPosition (bytes " $$") 0 0 = (0, 0)
  /\ 0 < 1
  /\ Continue 1%positive NewMathBlock (reader_at (bytes " $$") 5)
       (parser.mkContext 0 {[ 1%positive := parser.MathBlockData (mkMathBlockData 0) ]})
     = Ok (parser.Close, mkMathBlock [],
           text.mkReader (bytes " $$") (text.NewSegment 5 8) [text.ReqAdvance 3],
           parser.mkContext 0 {[ 1%positive := parser.MathBlockData (mkMathBlockData 0) ]}).
Proof.
  split; [|split; [reflexivity|split; [lia|reflexivity]]].
  exists (bytes " "), 2%nat, []. repeat split; [lia|discriminate].
Qed.

(** C3, amended.  With the per-block state present and the start-of-line test
    of lines 102-113 not closing the block, whatever the indentation of the
    line: when the line has a closing fence at [closingPos], Continue reports
    Close, asks the reader to advance by Stop - Start - Padding, and appends
    the span from the dedented start to [closingPos] exactly when [closingPos]
    lies after the dedented start. *)
Theorem Continue_rescan_closes (key : parser.ContextKey) (node : MathBlock)
    (reader : text.Reader) (pc : parser.Context) (data : mathBlockData)
    (closingPos pos padding : Z) :
  parser.Get key pc = Some (parser.MathBlockData data) ->
  closes_at_start (text.peekedLine reader) = Ok false ->
  fence_at (text.peekedLine reader) closingPos ->
  util.DedentPosition (text.peekedLine reader) 0 (indent data) = (pos, padding) ->
  let segment := text.peekedSegment reader in
  Continue key node reader pc
  = Ok (parser.Close,
        (if pos <? closingPos
         then Append node (text.NewSegmentPadding (text.Start segment + pos)
                             (text.Start segment + closingPos) padding)
         else node),
        text.mkReader (text.peekedLine reader) segment
          (text.requests reader
           ++ [text.ReqAdvance (text.Stop segment - text.Start segment - text.Padding segment)]),
        pc).
Proof.
  intros Hget Hstart Hfence Hdedent segment. unfold Continue, text.PeekLine.
  rewrite Hget. simpl assert_mathBlockData. rewrite bind_Ok, Hstart, bind_Ok.
  unfold Continue_rescan, text.PeekLine.
  rewrite scan_agree, (Open_scan_fence_at _ _ Hfence), bind_Ok.
  assert (Hpos : 0 <= closingPos).
  { destruct Hfence as (pre & _ & _ & _ & -> & _). apply len_nonneg. }
  destruct (Z.leb_spec 0 closingPos); [|lia].
  rewrite Hdedent. reflexivity.
Qed.

(** ** Spans and the opening fence *)

Lemma spans_from_weaken (bound bound' : Z) (node : MathBlock) :
  bound' <= bound -> spans_from bound node -> spans_from bound' node.
Proof.
  unfold spans_from. intros Hle Hnode.
  eapply Forall_impl; [exact Hnode|]. intros seg Hseg. simpl in Hseg. lia.
Qed.

Lemma spans_from_Append (bound : Z) (node : MathBlock) (seg : text.Segment) :
  spans_from bound node -> bound <= text.Start seg -> spans_from bound (Append node seg).
Proof.
  unfold spans_from, Append. simpl. intros Hnode Hseg.
  apply Forall_app. split; [exact Hnode|]. by apply Forall_singleton.
Qed.

Lemma slice_to_total (bs : list byte) (i : Z) :
  0 <= i <= len bs -> exists content, slice_to bs i = Ok content.
Proof.
  intros Hi. unfold slice_to.
  destruct (Z.leb_spec 0 i); [|lia]. destruct (Z.leb_spec i (len bs)); [|lia].
  simpl. eauto.
Qed.

(** Open returns for every entry column the host can supply; a node it
    returns has its spans at or after the end [i] of the opening run, and a
    node it leaves open has its state in the context. *)
Lemma Open_returns (key : parser.ContextKey) (reader : text.Reader) (pc : parser.Context) :
  -1 <= parser.BlockOffset pc ->
  exists opened state pc',
    Open key reader pc = Ok (opened, state, pc') /\
    forall node, opened = Some node ->
      exists i,
        skip_fence (text.peekedLine reader) (parser.BlockOffset pc) = Ok i /\
        i <= len (text.peekedLine reader) /\
        spans_from (text.Start (text.peekedSegment reader) + i) node /\
        (is_closed state = false ->
         exists data, parser.Get key pc' = Some (parser.MathBlockData data)).
Proof.
  intros Hcol.
  destruct (Z.eq_dec (parser.BlockOffset pc) (-1)) as [Hm|Hm].
  { exists None, parser.NoChildren, pc. split; [|done].
    apply Open_refuses. by left. }
  destruct (Z_le_gt_dec (len (text.peekedLine reader)) (parser.BlockOffset pc)) as [Hge|Hlt].
  { exists None, parser.NoChildren, pc. split; [|done].
    apply Open_refuses. right. by left. }
  destruct (split_at (text.peekedLine reader) (parser.BlockOffset pc)) as [Hsplit Hlen]; [lia|].
  revert Hsplit Hlen.
  generalize (take (Z.to_nat (parser.BlockOffset pc)) (text.peekedLine reader))
             (drop (Z.to_nat (parser.BlockOffset pc)) (text.peekedLine reader)).
  intros done todo Hline Hpos.
  destruct todo as [|c todo].
  { rewrite Hline, app_nil_r in Hlt. lia. }
  destruct (is_dollar c) eqn:Hc.
  2:{ exists None, parser.NoChildren, pc. split; [|done].
      apply Open_refuses. right. right. exists c.
      rewrite Hline, <- Hpos. split; [apply index_app_here|by apply is_dollar_false]. }
  destruct (fence_run_unfold (c :: todo)) as [Htodo Hrest].
  assert (Hn : (1 <= fence_run (c :: todo))%nat) by (simpl; rewrite Hc; lia).
  revert Htodo Hrest Hn.
  generalize (fence_run (c :: todo)) (drop (fence_run (c :: todo)) (c :: todo)).
  intros n rest Htodo Hrest Hn. rewrite Htodo in Hline. clear Htodo Hc.
  rewrite (Open_at_run key reader pc done n rest Hline (eq_sym Hpos) Hn Hrest).
  destruct (Z.of_nat n <? 2); [by exists None, parser.NoChildren, pc|].
  destruct (Open_scan_range rest) as (p & -> & Hp). rewrite bind_Ok. cbv zeta.
  assert (Hi : skip_fence (text.peekedLine reader) (parser.BlockOffset pc)
               = Ok (len done + Z.of_nat n)).
  { by rewrite Hline, <- Hpos, skip_fence_app, fence_run_replicate, Hrest, Nat.add_0_r. }
  assert (Hle : len done + Z.of_nat n <= len (text.peekedLine reader)).
  { rewrite Hline, !len_app. unfold len at 3. rewrite length_replicate.
    pose proof (len_nonneg rest). lia. }
  destruct (Z.ltb_spec 0 p).
  - destruct (slice_to_total rest p) as [content ->]; [lia|]. rewrite bind_Ok.
    eexists _, _, _. split; [reflexivity|].
    intros node [= <-]. eexists. split; [exact Hi|]. split; [exact Hle|]. split.
    + destruct (0 <? len content); [|by apply Forall_nil].
      apply spans_from_Append; [by apply Forall_nil|]. simpl. lia.
    + discriminate.
  - eexists _, _, _. split; [reflexivity|].
    intros node [= <-]. eexists. split; [exact Hi|]. split; [exact Hle|]. split.
    + destruct (_ && _); [|by apply Forall_nil].
      apply spans_from_Append; [by apply Forall_nil|]. simpl. lia.
    + intros _. eexists. apply Get_Set_value.
Qed.

(** With its state present Continue returns, keeps the context, and keeps
    every span at or after a bound that the segment of its line respects. *)
Lemma Continue_returns (key : parser.ContextKey) (node : MathBlock) (reader : text.Reader)
    (pc : parser.Context) (data : mathBlockData) (bound : Z) :
  parser.Get key pc = Some (parser.MathBlockData data) ->
  spans_from bound node ->
  bound <= text.Start (text.peekedSegment reader) ->
  exists state node' reader',
    Continue key node reader pc = Ok (state, node', reader', pc) /\
    spans_from bound node'.
Proof.
  intros Hget Hnode Hseg. unfold Continue, text.PeekLine.
  rewrite Hget. simpl assert_mathBlockData. rewrite bind_Ok.
  destruct (closes_at_start_total (text.peekedLine reader)) as [closed ->].
  rewrite bind_Ok. destruct closed; [by eexists _, _, _|].
  unfold Continue_rescan, text.PeekLine. rewrite scan_agree.
  destruct (Open_scan_range (text.peekedLine reader)) as (p & -> & Hp).
  rewrite bind_Ok.
  destruct (util.DedentPosition (text.peekedLine reader) 0 (indent data))
    as [pos padding] eqn:Hdedent.
  pose proof (DedentPosition_pos _ _ _ _ _ Hdedent) as Hpos.
  destruct (0 <=? p).
  - eexists _, _, _. split; [reflexivity|].
    destruct (pos <? p); [|exact Hnode].
    apply spans_from_Append; [exact Hnode|]. simpl. lia.
  - eexists _, _, _. split; [reflexivity|].
    apply spans_from_Append; [exact Hnode|]. simpl. lia.
Qed.

Lemma continue_lines_returns (key : parser.ContextKey) (following : list text.Reader)
    (node : MathBlock) (pc : parser.Context) (data : mathBlockData) (bound : Z) :
  parser.Get key pc = Some (parser.MathBlockData data) ->
  spans_from bound node ->
  Forall (fun reader => bound <= text.Start (text.peekedSegment reader)) following ->
  exists node', continue_lines key node pc following = Ok node' /\ spans_from bound node'.
Proof.
  intros Hget. revert node.
  induction following as [|reader following IH]; intros node Hnode Hall; simpl; [eauto|].
  apply Forall_cons in Hall as [Hreader Hall].
  destruct (Continue_returns key node reader pc data bound Hget Hnode Hreader)
    as (state & node' & reader' & -> & Hnode').
  rewrite bind_Ok. cbv iota beta.
  destruct (is_closed state); [eauto|]. by apply IH.
Qed.

(** C7.  For a block parsed from its first line through the lines that follow
    it in the source: the parse returns, and every span of the node starts at
    or after the source offset at which the opening run of '$' ends.  The
    opening run ends at index [i] of the first line, which is the source
    offset Start + i - Padding of that line's segment. *)
Theorem spans_exclude_opening_fence (key : parser.ContextKey) (first : text.Reader)
    (following : list text.Reader) (pc : parser.Context) :
  let line := text.peekedLine first in
  let segment := text.peekedSegment first in
  -1 <= parser.BlockOffset pc ->
  0 <= text.Padding segment ->
  len line <= text.Padding segment + (text.Stop segment - text.Start segment) ->
  Forall (fun reader => text.Stop segment <= text.Start (text.peekedSegment reader))
    following ->
  exists result,
    parse_block key first following pc = Ok result /\
    forall node, result = Some node ->
      exists i,
        skip_fence line (parser.BlockOffset pc) = Ok i /\
        spans_from (text.Start segment + i - text.Padding segment) node.
Proof.
  intros line segment Hcol Hpad Hlen Hfollowing. unfold parse_block.
  destruct (Open_returns key first pc Hcol) as (opened & state & pc' & -> & Hopened).
  rewrite bind_Ok. cbv iota beta.
  destruct opened as [node|]; [|by exists None].
  destruct (Hopened node eq_refl) as (i & Hi & Hle & Hspans & Hstate).
  fold line segment in Hi, Hle, Hspans.
  assert (Hnode : spans_from (text.Start segment + i - text.Padding segment) node).
  { eapply spans_from_weaken; [|exact Hspans]. lia. }
  destruct (is_closed state).
  - exists (Some node). split; [done|]. intros ? [= <-]. eauto.
  - destruct (Hstate eq_refl) as [data Hget].
    destruct (continue_lines_returns key following node pc' data _ Hget Hnode)
      as (node' & -> & Hnode').
    { eapply Forall_impl; [exact Hfollowing|]. intros reader Hreader.
      simpl in Hreader. lia. }
    rewrite bind_Ok. exists (Some node'). split; [done|]. intros ? [= <-]. eauto.
Qed.

(** ** The scanning loops: termination and agreement *)

(** More fuel does not change what a loop returns. *)
Lemma Open_scan_fuel (fuel fuel' : nat) (line : list byte) (j p : Z) :
  (fuel <= fuel')%nat -> Open_scan fuel line j = Ok p -> Open_scan fuel' line j = Ok p.
Proof.
  revert fuel' j. induction fuel as [|fuel IH]; intros fuel' j Hle; simpl; [done|].
  destruct fuel' as [|fuel']; [lia|]. simpl.
  destruct (j <? len line - 1); [|done].
  destruct (Open_scan_body line j) as [[q|j']| |]; simpl; try done.
  apply IH. lia.
Qed.

(** An iteration that does not break moves the position forward, inside the
    line; from a '$' it moves to the end of the run of '$' that starts there. *)
Lemma Open_scan_body_advances (line : list byte) (j j' : Z) :
  Open_scan_body line j = Ok (Next j') ->
  j < j' <= len line /\ (index line j = Ok "$"%byte -> skip_fence line j = Ok j').
Proof.
  intros Hbody.
  assert (Hj : 0 <= j < len line).
  { unfold Open_scan_body, index in Hbody.
    destruct (Z.leb_spec 0 j); [|done]. destruct (Z.ltb_spec j (len line)); [lia|done]. }
  destruct (split_at line j) as [Hsplit Hlen]; [lia|].
  revert Hsplit Hlen.
  generalize (take (Z.to_nat j) line) (drop (Z.to_nat j) line).
  intros done todo -> <-. rewrite len_app in Hj.
  destruct todo as [|c rest]; [change (len []) with 0 in Hj; lia|].
  rewrite Open_scan_body_app in Hbody. rewrite index_app_here, skip_fence_app, len_app.
  pose proof (fence_run_le (c :: rest)) as Hrun.
  assert (Hone : is_dollar c = true -> (1 <= fence_run (c :: rest))%nat).
  { intros Hc. simpl. rewrite Hc. lia. }
  cbv zeta in Hbody. revert Hbody Hrun Hone.
  generalize (fence_run (c :: rest)). intros r Hbody Hrun Hone.
  unfold len at 3.
  destruct (is_dollar c) eqn:Hc.
  - destruct (_ && _); [done|]. injection Hbody as <-.
    specialize (Hone eq_refl). split; [lia|done].
  - injection Hbody as <-. split; [simpl length; lia|].
    intros [= ->]. done.
Qed.

(** C8.  The scan of a line terminates: each loop returns, for every fuel
    above the length of the line, one and the same result, which is not found
    or a position inside the line; and an iteration that does not stop the
    loop moves the position strictly forward, past the run of '$' it examined
    when it stood on one. *)
Theorem fence_scan_terminates (line : list byte) :
  (exists p,
     (p = -1 \/ 0 <= p < len line) /\
     forall fuel, (length line < fuel)%nat ->
       Open_scan fuel line 0 = Ok p /\ Continue_scan fuel line 0 = Ok p)
  /\ (forall j j', Open_scan_body line j = Ok (Next j') ->
        j < j' <= len line /\ (index line j = Ok "$"%byte -> skip_fence line j = Ok j'))
  /\ (forall j j', Continue_scan_body line j = Ok (Next j') ->
        j < j' <= len line /\ (index line j = Ok "$"%byte -> skip_fence line j = Ok j')).
Proof.
  split; [|split].
  - destruct (Open_scan_range line) as (p & Hscan & Hp).
    exists p. split; [exact Hp|]. intros fuel Hfuel.
    split; [|etransitivity; [apply scan_agree|]];
      apply (Open_scan_fuel (S (length line))); (lia || done).
  - apply Open_scan_body_advances.
  - intros j j' Hbody. apply Open_scan_body_advances.
    etransitivity; [symmetry; apply scan_body_agree|exact Hbody].
Qed.

(** C10.  On the same bytes the loop of Open and the loop of Continue return
    the same closing position or both return not found (-1); they agree from
    every start position and for every fuel. *)
Theorem scan_loops_compute_the_same (bs : list byte) :
  (exists p, Open_scan (S (length bs)) bs 0 = Ok p /\ Continue_scan (S (length bs)) bs 0 = Ok p)
  /\ (forall fuel j, Continue_scan fuel bs j = Open_scan fuel bs j).
Proof.
  split; [|intros fuel j; apply scan_agree].
  destruct (Open_scan_range bs) as (p & Hscan & _).
  exists p. split; [exact Hscan|]. etransitivity; [apply scan_agree|exact Hscan].
Qed.

(** ** Further properties: the scan and the closing fence *)

Lemma fence_at_nonneg (line : list byte) (p : Z) : fence_at line p -> 0 <= p.
Proof. intros (pre & _ & _ & _ & -> & _). apply len_nonneg. Qed.

Lemma fence_at_inside (line : list byte) (p : Z) : fence_at line p -> p + 2 <= len line.
Proof.
  intros (pre & n & post & -> & -> & Hn & _).
  rewrite !len_app. unfold len at 3. rewrite length_replicate.
  pose proof (len_nonneg post). lia.
Qed.

(** A line has at most one closing fence. *)
Lemma fence_at_unique (line : list byte) (p q : Z) :
  fence_at line p -> fence_at line q -> p = q.
Proof.
  intros Hp%Open_scan_fence_at Hq%Open_scan_fence_at. congruence.
Qed.

(** Without a closing fence the scan reports not found. *)
Lemma no_fence_scan (line : list byte) :
  no_fence line -> Open_scan (S (length line)) line 0 = Ok (-1).
Proof.
  intros Hno. destruct (Open_scan_range line) as (p & Hscan & [-> | Hp]); [done|].
  exfalso. apply (Hno p). apply Open_scan_spec. split; [exact Hscan|lia].
Qed.

(** A scan that reports not found shows that the line has no closing fence. *)
Lemma scan_no_fence (line : list byte) :
  Open_scan (S (length line)) line 0 = Ok (-1) -> no_fence line.
Proof.
  intros Hscan p Hp. pose proof (fence_at_nonneg _ _ Hp).
  apply Open_scan_fence_at in Hp. rewrite Hscan in Hp. injection Hp as Hp. lia.
Qed.

Lemma IsBlank_no_fence (line : list byte) : util.IsBlank line = true -> no_fence line.
Proof.
  intros Hblank p (pre & n & post & -> & _ & Hn & _).
  destruct n as [|n]; [lia|].
  change (replicate (S n) "$"%byte ++ post) with ("$"%byte :: (replicate n "$"%byte ++ post))
    in Hblank.
  by rewrite IsBlank_dollar in Hblank.
Qed.

(** What both loops compute on a whole line. *)
Lemma scan_outcome (line : list byte) :
  exists p,
    Open_scan (S (length line)) line 0 = Ok p /\
    Continue_scan (S (length line)) line 0 = Ok p /\
    ((fence_at line p /\ forall q, fence_at line q -> q = p) \/
     (p = -1 /\ no_fence line)).
Proof.
  destruct (Open_scan_range line) as (p & Hscan & Hp).
  exists p. split; [exact Hscan|]. split; [etransitivity; [apply scan_agree|exact Hscan]|].
  destruct Hp as [-> | Hp].
  - right. split; [done|]. intros q Hq. pose proof (fence_at_nonneg _ _ Hq).
    apply Open_scan_fence_at in Hq. rewrite Hscan in Hq. injection Hq as Hq. lia.
  - left. assert (Hf : fence_at line p) by (apply Open_scan_spec; split; [done|lia]).
    split; [exact Hf|]. intros q Hq. by apply (fence_at_unique line).
Qed.

(** X1.  The scan of a line, as a function of the line alone: it returns the
    position of the closing fence of the line, which is unique, and it returns
    -1 exactly when the line has no closing fence.  The loop of Open and the
    loop of Continue return the same value. *)
Theorem scan_reports_the_closing_fence (line : list byte) :
  exists p,
    Open_scan (S (length line)) line 0 = Ok p /\
    Continue_scan (S (length line)) line 0 = Ok p /\
    ((fence_at line p /\ forall q, fence_at line q -> q = p) \/
     (p = -1 /\ no_fence line)).
Proof. apply scan_outcome. Qed.

(** ** Further properties: goldmark/util positions *)

Lemma IndentWidth_loop_prefix (bs : list byte) (currentPos width pos w p : Z)
    (pre : list byte) :
  util.IndentWidth_loop bs currentPos width pos = (w, p) ->
  last pre <> Some "$"%byte ->
  last (pre ++ take (Z.to_nat (p - pos)) bs) <> Some "$"%byte.
Proof.
  revert width pos pre. induction bs as [|b bs IH]; intros width pos pre; simpl.
  - intros [= _ <-] Hpre. by rewrite take_nil, app_nil_r.
  - destruct (Byte.eqb b " ") eqn:Hsp.
    + intros Hloop Hpre. pose proof (IndentWidth_loop_pos _ _ _ _ _ _ Hloop) as Hp.
      replace (Z.to_nat (p - pos)) with (S (Z.to_nat (p - (pos + 1)))) by lia.
      simpl. change (pre ++ b :: take (Z.to_nat (p - (pos + 1))) bs)
        with (pre ++ [b] ++ take (Z.to_nat (p - (pos + 1))) bs).
      rewrite (assoc_L (++)). apply (IH _ _ _ Hloop).
      rewrite last_snoc. apply Byte.byte_dec_bl in Hsp. subst b. discriminate.
    + destruct (Byte.eqb b x09) eqn:Htab.
      * intros Hloop Hpre. pose proof (IndentWidth_loop_pos _ _ _ _ _ _ Hloop) as Hp.
        replace (Z.to_nat (p - pos)) with (S (Z.to_nat (p - (pos + 1)))) by lia.
        simpl. change (pre ++ b :: take (Z.to_nat (p - (pos + 1))) bs)
          with (pre ++ [b] ++ take (Z.to_nat (p - (pos + 1))) bs).
        rewrite (assoc_L (++)). apply (IH _ _ _ Hloop).
        rewrite last_snoc. apply Byte.byte_dec_bl in Htab. subst b. discriminate.
      * intros [= _ <-] Hpre. rewrite Z.sub_diag. simpl. by rewrite app_nil_r.
Qed.

(** The indentation that [IndentWidth] skips does not end in '$'. *)
Lemma IndentWidth_prefix (bs : list byte) (w p : Z) :
  util.IndentWidth bs 0 = (w, p) -> last (take (Z.to_nat p) bs) <> Some "$"%byte.
Proof.
  intros H. pose proof (IndentWidth_loop_prefix bs 0 0 0 w p [] H) as Hlast.
  rewrite Z.sub_0_r in Hlast. apply Hlast. discriminate.
Qed.

Lemma DedentPosition_loop_bound (bs : list byte) (currentPos w i w' i' : Z) :
  util.DedentPosition_loop bs currentPos w i = (w', i') -> i' <= i + len bs.
Proof.
  revert w i. induction bs as [|b bs IH]; intros w i; simpl.
  - intros [= _ <-]. change (len []) with 0. lia.
  - rewrite len_cons. pose proof (len_nonneg bs) as Hbs.
    destruct (Byte.eqb b x09); [intros H%IH; lia|].
    destruct (Byte.eqb b " "); [intros H%IH; lia|].
    intros [= _ <-]. lia.
Qed.

(** [DedentPosition] returns a position inside the line and a padding that is
    not negative. *)
Lemma DedentPosition_bounds (bs : list byte) (currentPos width pos padding : Z) :
  util.DedentPosition bs currentPos width = (pos, padding) ->
  0 <= pos <= len bs /\ 0 <= padding.
Proof.
  unfold util.DedentPosition. pose proof (len_nonneg bs) as Hbs.
  destruct (width =? 0); [intros [= <- <-]; lia|].
  destruct (util.DedentPosition_loop bs currentPos 0 0) as [w i] eqn:Hloop.
  pose proof (DedentPosition_loop_pos _ _ _ _ _ _ Hloop).
  pose proof (DedentPosition_loop_bound _ _ _ _ _ _ Hloop).
  destruct (Z.leb_spec width w); intros [= <- <-]; lia.
Qed.

(** ** Further properties: Continue *)

(** When the start-of-line test closes, the line has its closing fence right
    after the indentation. *)
Lemma closes_at_start_true (line : list byte) :
  closes_at_start line = Ok true ->
  exists w pos, util.IndentWidth line 0 = (w, pos) /\ w < 4 /\ fence_at line pos.
Proof.
  unfold closes_at_start.
  destruct (util.IndentWidth line 0) as [w pos] eqn:Hindent.
  destruct (Z.ltb_spec w 4) as [Hw|Hw]; [|discriminate].
  pose proof (IndentWidth_prefix _ _ _ Hindent) as Hlast.
  destruct (split_at line pos (IndentWidth_pos _ _ _ _ Hindent)) as [Hsplit Hlen].
  intros Hclose. exists w, pos. split; [done|]. split; [done|].
  revert Hsplit Hlen Hlast Hclose. clear Hindent.
  generalize (take (Z.to_nat pos) line) (drop (Z.to_nat pos) line).
  intros done todo -> <- Hlast.
  rewrite skip_fence_app, bind_Ok.
  destruct (Z.leb_spec 2 (len done + Z.of_nat (fence_run todo) - len done)) as [Hr|Hr];
    [|discriminate].
  rewrite slice_from_app by apply fence_run_le. rewrite bind_Ok. intros [= Hblank].
  exists done, (fence_run todo), (drop (fence_run todo) todo).
  destruct (fence_run_unfold todo) as [Htodo _]. rewrite <- Htodo.
  repeat split; [lia|exact Hblank|exact Hlast].
Qed.

(** The three exits of Continue for a block whose state is present. *)
Lemma Continue_cases (key : parser.ContextKey) (node : MathBlock) (reader : text.Reader)
    (pc : parser.Context) (data : mathBlockData) :
  parser.Get key pc = Some (parser.MathBlockData data) ->
  let line := text.peekedLine reader in
  let segment := text.peekedSegment reader in
  let advance := text.Stop segment - text.Start segment - text.Padding segment in
  exists closed p pos padding,
    closes_at_start line = Ok closed /\
    Open_scan (S (length line)) line 0 = Ok p /\
    util.DedentPosition line 0 (indent data) = (pos, padding) /\
    Continue key node reader pc =
    Ok (if closed then (parser.Close, node, text.Advance advance reader, pc)
        else if 0 <=? p then
          (parser.Close,
           (if pos <? p
            then Append node (text.NewSegmentPadding (text.Start segment + pos)
                                (text.Start segment + p) padding)
            else node),
           text.Advance advance reader, pc)
        else
          (Z.lor parser.Continue parser.NoChildren,
           Append node (text.NewSegmentPadding (text.Start segment + pos)
                          (text.Stop segment) padding),
           text.AdvanceAndSetPadding
             (text.Stop segment - text.Start segment - pos - 1) padding reader,
           pc)).
Proof.
  intros Hget line segment advance. unfold Continue, text.PeekLine.
  rewrite Hget. simpl assert_mathBlockData. rewrite bind_Ok. fold line segment.
  destruct (closes_at_start_total line) as [closed Hclosed].
  destruct (Open_scan_range line) as (p & Hscan & _).
  destruct (util.DedentPosition line 0 (indent data)) as [pos padding] eqn:Hdedent.
  exists closed, p, pos, padding. split; [done|]. split; [done|]. split; [done|].
  rewrite Hclosed, bind_Ok. destruct closed; [done|].
  unfold Continue_rescan, text.PeekLine. fold line segment.
  assert (Hc : Continue_scan (S (length line)) line 0 = Ok p).
  { etransitivity; [apply scan_agree|exact Hscan]. }
  rewrite Hc, bind_Ok, Hdedent. by destruct (0 <=? p).
Qed.

(** X2.  For a block whose state is present, Continue returns and closes the
    block exactly when the line has a closing fence, wherever on the line and
    behind whatever indentation the fence stands. *)
Theorem Continue_closes_iff_fence (key : parser.ContextKey) (node : MathBlock)
    (reader : text.Reader) (pc : parser.Context) (data : mathBlockData) :
  parser.Get key pc = Some (parser.MathBlockData data) ->
  exists state node' reader',
    Continue key node reader pc = Ok (state, node', reader', pc) /\
    (is_closed state = true <-> exists p, fence_at (text.peekedLine reader) p).
Proof.
  intros Hget.
  destruct (Continue_cases key node reader pc data Hget)
    as (closed & p & pos & padding & Hclosed & Hscan & _ & ->).
  destruct closed.
  - eexists _, _, _. split; [reflexivity|]. split; [|done].
    intros _. destruct (closes_at_start_true _ Hclosed) as (w & q & _ & _ & Hq). eauto.
  - destruct (Z.leb_spec 0 p) as [Hp|Hp].
    + eexists _, _, _. split; [reflexivity|]. split; [|done].
      intros _. exists p. apply Open_scan_spec. by split.
    + eexists _, _, _. split; [reflexivity|]. split; [done|].
      intros [q Hq]. pose proof (fence_at_nonneg _ _ Hq).
      apply Open_scan_fence_at in Hq. rewrite Hscan in Hq. injection Hq as Hq. lia.
Qed.

(** Continue on a line without a closing fence, state present. *)
Lemma Continue_no_fence (key : parser.ContextKey) (node : MathBlock)
    (reader : text.Reader) (pc : parser.Context) (data : mathBlockData)
    (pos padding : Z) :
  parser.Get key pc = Some (parser.MathBlockData data) ->
  no_fence (text.peekedLine reader) ->
  util.DedentPosition (text.peekedLine reader) 0 (indent data) = (pos, padding) ->
  let segment := text.peekedSegment reader in
  Continue key node reader pc
  = Ok (Z.lor parser.Continue parser.NoChildren,
        Append node (text.NewSegmentPadding (text.Start segment + pos)
                       (text.Stop segment) padding),
        text.mkReader (text.peekedLine reader) segment
          (text.requests reader
           ++ [text.ReqAdvanceAndSetPadding
                 (text.Stop segment - text.Start segment - pos - 1) padding]),
        pc).
Proof.
  intros Hget Hno Hdedent segment.
  destruct (Continue_cases key node reader pc data Hget)
    as (closed & p & pos' & padding' & Hclosed & Hscan & Hdedent' & ->).
  rewrite Hdedent in Hdedent'. injection Hdedent' as <- <-.
  rewrite (no_fence_scan _ Hno) in Hscan. injection Hscan as <-.
  destruct closed; [|reflexivity].
  destruct (closes_at_start_true _ Hclosed) as (w & q & _ & _ & Hq). by destruct (Hno q).
Qed.

(** X3.  On a line without a closing fence, for a block whose state is
    present, Continue keeps the block open (Continue | NoChildren), appends
    the one span from the dedented start to the end of the line's segment
    with the padding of the dedent, and asks the reader to advance by
    Stop - Start - pos - 1 and to set that padding. *)
Theorem Continue_appends_line (key : parser.ContextKey) (node : MathBlock)
    (reader : text.Reader) (pc : parser.Context) (data : mathBlockData)
    (pos padding : Z) :
  parser.Get key pc = Some (parser.MathBlockData data) ->
  no_fence (text.peekedLine reader) ->
  util.DedentPosition (text.peekedLine reader) 0 (indent data) = (pos, padding) ->
  let segment := text.peekedSegment reader in
  Continue key node reader pc
  = Ok (Z.lor parser.Continue parser.NoChildren,
        Append node (text.NewSegmentPadding (text.Start segment + pos)
                       (text.Stop segment) padding),
        text.mkReader (text.peekedLine reader) segment
          (text.requests reader
           ++ [text.ReqAdvanceAndSetPadding
                 (text.Stop segment - text.Start segment - pos - 1) padding]),
        pc).
Proof. apply Continue_no_fence. Qed.

(** X4.  A blank line never closes a block: with the state present Continue
    keeps the block open and appends a span for the line. *)
Theorem Continue_blank_line_continues (key : parser.ContextKey) (node : MathBlock)
    (reader : text.Reader) (pc : parser.Context) (data : mathBlockData) :
  parser.Get key pc = Some (parser.MathBlockData data) ->
  util.IsBlank (text.peekedLine reader) = true ->
  exists span reader',
    Continue key node reader pc
    = Ok (Z.lor parser.Continue parser.NoChildren, Append node span, reader', pc)
    /\ is_closed (Z.lor parser.Continue parser.NoChildren) = false
    /\ text.Stop span = text.Stop (text.peekedSegment reader).
Proof.
  intros Hget Hblank.
  destruct (Continue_cases key node reader pc data Hget)
    as (closed & p & pos & padding & Hclosed & Hscan & _ & ->).
  pose proof (IsBlank_no_fence _ Hblank) as Hno.
  rewrite (no_fence_scan _ Hno) in Hscan. injection Hscan as <-.
  destruct closed.
  - destruct (closes_at_start_true _ Hclosed) as (w & q & _ & _ & Hq). by destruct (Hno q).
  - eexists _, _. split; [reflexivity|]. split; reflexivity.
Qed.

(** X5.  Whatever Continue returns, it only appends: the node keeps its spans
    in order and gains at most one, the context is the one it received, the
    reader keeps its line and segment and receives at most one request. *)
Theorem Continue_append_only (key : parser.ContextKey) (node node' : MathBlock)
    (reader reader' : text.Reader) (pc pc' : parser.Context) (state : parser.State) :
  Continue key node reader pc = Ok (state, node', reader', pc') ->
  pc' = pc /\
  (exists spans, Lines node' = Lines node ++ spans /\ (length spans <= 1)%nat) /\
  text.peekedLine reader' = text.peekedLine reader /\
  text.peekedSegment reader' = text.peekedSegment reader /\
  (exists requests, text.requests reader' = text.requests reader ++ requests /\
                    (length requests <= 1)%nat).
Proof.
  destruct (parser.Get key pc) as [[data|tag]|] eqn:Hget.
  - destruct (Continue_cases key node reader pc data Hget)
      as (closed & p & pos & padding & _ & _ & _ & ->).
    assert (Hnil : forall A (l : list A), l = l ++ [] /\ (length (@nil A) <= 1)%nat).
    { intros A l. by rewrite app_nil_r; split; [|simpl; lia]. }
    destruct closed; [|destruct (0 <=? p); [destruct (pos <? p)|]];
      intros [= <- <- <- <-]; (split; [done|]); (split; [|split; [done|split; [done|]]]);
      simpl; eauto.
  - unfold Continue, text.PeekLine. rewrite Hget. discriminate.
  - unfold Continue, text.PeekLine. rewrite Hget. intros [= <- <- <- <-].
    split; [done|]. split; [exists []; by rewrite app_nil_r; split; [|simpl; lia]|].
    split; [done|]. split; [done|]. exists []. by rewrite app_nil_r; split; [|simpl; lia].
Qed.

(** X6.  Continue returns unless the context holds a value of another type
    under the key of the per-block state: with the state absent or present it
    returns, and on a foreign value the unchecked type assertion panics. *)
Theorem Continue_returns_iff (key : parser.ContextKey) (node : MathBlock)
    (reader : text.Reader) (pc : parser.Context) :
  ((forall tag, parser.Get key pc <> Some (parser.Foreign tag)) ->
   exists outcome, Continue key node reader pc = Ok outcome) /\
  (forall tag, parser.Get key pc = Some (parser.Foreign tag) ->
   Continue key node reader pc = Panic).
Proof.
  split.
  - intros Hget. destruct (parser.Get key pc) as [[data|tag]|] eqn:E.
    + destruct (Continue_cases key node reader pc data E)
        as (closed & p & pos & padding & _ & _ & _ & ->). eauto.
    + by destruct (Hget tag).
    + unfold Continue, text.PeekLine. rewrite E. eauto.
  - intros tag Hget. unfold Continue, text.PeekLine. by rewrite Hget.
Qed.

(** X7.  A span that Continue appends lies inside the segment of its line: it
    starts at or after the start of the segment, does not end before it
    starts, ends at or before the end of the segment, and its padding is not
    negative.  The segment is that of the peeked line, without padding. *)
Theorem Continue_span_within_segment (key : parser.ContextKey) (node node' : MathBlock)
    (reader reader' : text.Reader) (pc pc' : parser.Context) (state : parser.State)
    (spans : list text.Segment) :
  len (text.peekedLine reader)
  <= text.Stop (text.peekedSegment reader) - text.Start (text.peekedSegment reader) ->
  Continue key node reader pc = Ok (state, node', reader', pc') ->
  Lines node' = Lines node ++ spans ->
  Forall (span_within (text.peekedSegment reader)) spans.
Proof.
  intros Hlen HContinue Hspans.
  assert (Hnil : Lines node = Lines node ++ spans -> Forall (span_within (text.peekedSegment reader)) spans).
  { intros E. rewrite <- (app_nil_r (Lines node)) in E at 1.
    apply app_inv_head in E. subst spans. constructor. }
  assert (Hone : forall s, Lines (Append node s) = Lines node ++ spans ->
                   span_within (text.peekedSegment reader) s ->
                   Forall (span_within (text.peekedSegment reader)) spans).
  { intros s E Hs. simpl in E. apply app_inv_head in E. subst spans. by constructor. }
  destruct (parser.Get key pc) as [[data|tag]|] eqn:Hget.
  - destruct (Continue_cases key node reader pc data Hget)
      as (closed & p & pos & padding & _ & Hscan & Hdedent & E).
    rewrite E in HContinue. clear E.
    destruct (DedentPosition_bounds _ _ _ _ _ Hdedent) as [Hpos Hpad].
    pose proof (len_nonneg (text.peekedLine reader)) as Hnn.
    destruct closed; [injection HContinue as <- <- <- <-; by apply Hnil|].
    destruct (Z.leb_spec 0 p) as [Hp|Hp].
    + assert (Hin : p + 2 <= len (text.peekedLine reader)).
      { apply fence_at_inside, Open_scan_spec. by split. }
      destruct (Z.ltb_spec pos p); injection HContinue as <- <- <- <-; [|by apply Hnil].
      eapply Hone; [exact Hspans|]. unfold span_within. simpl. lia.
    + injection HContinue as <- <- <- <-.
      eapply Hone; [exact Hspans|]. unfold span_within. simpl. lia.
  - unfold Continue, text.PeekLine in HContinue. by rewrite Hget in HContinue.
  - unfold Continue, text.PeekLine in HContinue. rewrite Hget in HContinue.
    injection HContinue as <- <- <- <-. by apply Hnil.
Qed.

(** ** Further properties: Open *)

Lemma head_fence_run (bs : list byte) : head bs <> Some "$"%byte -> fence_run bs = O.
Proof.
  destruct bs as [|c bs]; simpl; [done|].
  destruct (is_dollar c) eqn:Hc; [|done].
  apply is_dollar_true in Hc. by subst c.
Qed.

(** A closing fence of a slice that does not start with '$' stands after at
    least one byte. *)
Lemma fence_at_after_content (rest : list byte) (p : Z) :
  fence_run rest = O -> fence_at rest p ->
  0 < p /\ exists content, slice_to rest p = Ok content /\ len content = p.
Proof.
  intros Hrun (pre & n & post & -> & -> & Hn & _).
  destruct pre as [|c pre].
  - destruct n as [|n]; [lia|]. simpl in Hrun. done.
  - split; [rewrite len_cons; pose proof (len_nonneg pre); lia|].
    exists (c :: pre). by rewrite slice_to_app.
Qed.

(** Open panics below column -1, refuses, or stands on an opening run of at
    least two '$'. *)
Lemma Open_shape (key : parser.ContextKey) (reader : text.Reader) (pc : parser.Context) :
  (parser.BlockOffset pc < -1 /\ Open key reader pc = Panic) \/
  Open key reader pc = Ok (None, parser.NoChildren, pc) \/
  exists done n rest,
    text.peekedLine reader = done ++ replicate n "$"%byte ++ rest /\
    parser.BlockOffset pc = len done /\ (2 <= n)%nat /\ fence_run rest = O.
Proof.
  destruct (Z_lt_le_dec (parser.BlockOffset pc) (-1)) as [Hlow|Hcol].
  { left. split; [done|]. unfold Open, text.PeekLine, index.
    pose proof (len_nonneg (text.peekedLine reader)).
    destruct (Z.eqb_spec (parser.BlockOffset pc) (-1)); [lia|].
    destruct (Z.leb_spec (len (text.peekedLine reader)) (parser.BlockOffset pc)); [lia|].
    destruct (Z.leb_spec 0 (parser.BlockOffset pc)); [lia|]. done. }
  right.
  destruct (Z.eq_dec (parser.BlockOffset pc) (-1)) as [Hm|Hm].
  { left. apply Open_refuses. by left. }
  destruct (Z_le_gt_dec (len (text.peekedLine reader)) (parser.BlockOffset pc)) as [Hge|Hlt].
  { left. apply Open_refuses. right. by left. }
  destruct (split_at (text.peekedLine reader) (parser.BlockOffset pc)) as [Hsplit Hlen]; [lia|].
  revert Hsplit Hlen.
  generalize (take (Z.to_nat (parser.BlockOffset pc)) (text.peekedLine reader))
             (drop (Z.to_nat (parser.BlockOffset pc)) (text.peekedLine reader)).
  intros done todo Hline Hpos.
  destruct todo as [|c todo].
  { rewrite Hline, app_nil_r in Hlt. lia. }
  destruct (is_dollar c) eqn:Hc.
  2:{ left. apply Open_refuses. right. right. exists c.
      rewrite Hline, <- Hpos. split; [apply index_app_here|by apply is_dollar_false]. }
  destruct (fence_run_unfold (c :: todo)) as [Htodo Hrest].
  assert (Hn : (1 <= fence_run (c :: todo))%nat) by (simpl; rewrite Hc; lia).
  revert Htodo Hrest Hn.
  generalize (fence_run (c :: todo)) (drop (fence_run (c :: todo)) (c :: todo)).
  intros n rest Htodo Hrest Hn. rewrite Htodo in Hline. clear Htodo Hc.
  destruct (le_lt_dec 2 n) as [Hn2|Hn2].
  - right. by exists done, n, rest.
  - left. rewrite (Open_at_run key reader pc done n rest Hline (eq_sym Hpos) Hn Hrest).
    destruct (Z.ltb_spec (Z.of_nat n) 2); [done|lia].
Qed.

(** Open on an opening run of at least two '$': same-line when the rest of the
    line has a closing fence, multi-line otherwise. *)
Lemma Open_at_fence (key : parser.ContextKey) (reader : text.Reader) (pc : parser.Context)
    (done : list byte) (n : nat) (rest : list byte) :
  text.peekedLine reader = done ++ replicate n "$"%byte ++ rest ->
  parser.BlockOffset pc = len done -> (2 <= n)%nat -> fence_run rest = O ->
  let segment := text.peekedSegment reader in
  let i := len done + Z.of_nat n in
  (exists p,
     fence_at rest p /\ 0 < p /\
     Open key reader pc
     = Ok (Some (mkMathBlock [text.NewSegment (text.Start segment + i)
                                (text.Start segment + i + p)]),
           parser.Close, pc)) \/
  (no_fence rest /\
   Open key reader pc
   = Ok (Some (if util.IsBlank rest then NewMathBlock
               else mkMathBlock [text.NewSegment (text.Start segment + i)
                                   (text.Stop segment)]),
         parser.NoChildren,
         parser.Set_ key (Some (parser.MathBlockData (mkMathBlockData (len done)))) pc)).
Proof.
  intros Hline Hpos Hn Hrest segment i.
  rewrite (Open_at_run key reader pc done n rest Hline Hpos) by (lia || done).
  destruct (Z.ltb_spec (Z.of_nat n) 2); [lia|].
  destruct (scan_outcome rest) as (p & -> & _ & [[Hfence _] | [-> Hno]]); rewrite bind_Ok.
  - left. exists p. destruct (fence_at_after_content rest p Hrest Hfence)
      as (Hp & content & -> & Hcontent).
    split; [done|]. split; [done|]. cbv zeta. rewrite bind_Ok, Hcontent.
    by destruct (Z.ltb_spec 0 p); [|lia].
  - right. split; [done|]. cbv zeta. change (0 <? -1) with false. cbv iota.
    destruct rest as [|c rest]; [done|].
    assert (Hlen : (0 <? len (c :: rest)) = true).
    { rewrite len_cons. pose proof (len_nonneg rest). apply Z.ltb_lt. lia. }
    rewrite Hlen. by destruct (util.IsBlank (c :: rest)).
Qed.

(** X8.  Open on a line that holds, from the entry column on, an opening run
    of at least two '$', a payload that is not empty and neither begins nor
    ends with '$', a closing run of at least two '$' and then blank content
    only: the node is complete (Close), the context is untouched, and the one
    span covers exactly the payload in the source.  The entry column, the
    lengths of the two runs and the bytes around the line are arbitrary. *)
Theorem Open_same_line_anywhere (key : parser.ContextKey)
    (before done content post after : list byte) (n m : nat)
    (store : gmap parser.ContextKey parser.ContextValue) :
  (2 <= n)%nat -> (2 <= m)%nat ->
  content <> [] -> head content <> Some "$"%byte -> last content <> Some "$"%byte ->
  util.IsBlank post = true ->
  let line := done ++ replicate n "$"%byte ++ content ++ replicate m "$"%byte ++ post in
  let source := before ++ line ++ after in
  let pc := parser.mkContext (len done) store in
  let span := text.NewSegment (len before + (len done + Z.of_nat n))
                (len before + (len done + Z.of_nat n) + len content) in
  Open key (reader_at line (len before)) pc
  = Ok (Some (mkMathBlock [span]), parser.Close, pc)
  /\ text.Value span source = content.
Proof.
  intros Hn Hm Hne Hhead Hlast Hpost line source pc span.
  assert (Hrun : fence_run (content ++ replicate m "$"%byte ++ post) = O).
  { apply head_fence_run. by destruct content. }
  assert (Hfence : fence_at (content ++ replicate m "$"%byte ++ post) (len content)).
  { by exists content, m, post. }
  split.
  - destruct (Open_at_fence key (reader_at line (len before)) pc done n
                (content ++ replicate m "$"%byte ++ post) eq_refl eq_refl Hn Hrun)
      as [(p & Hp & _ & ->) | [Hno _]].
    + by rewrite (fence_at_unique _ _ _ Hp Hfence).
    + by destruct (Hno _ Hfence).
  - unfold text.Value, span, source, line. simpl.
    pose proof (len_nonneg before). pose proof (len_nonneg done).
    pose proof (len_nonneg content).
    replace (Z.to_nat (len before + (len done + Z.of_nat n)))
      with (length (before ++ done ++ replicate n "$"%byte))
      by (rewrite !length_app, length_replicate; unfold len; lia).
    replace (Z.to_nat (len before + (len done + Z.of_nat n) + len content)
             - length (before ++ done ++ replicate n "$"%byte))%nat
      with (length content)
      by (rewrite !length_app, length_replicate; unfold len; lia).
    replace (before ++ (done ++ replicate n "$"%byte ++ content
                        ++ replicate m "$"%byte ++ post) ++ after)
      with ((before ++ done ++ replicate n "$"%byte)
            ++ content ++ (replicate m "$"%byte ++ post) ++ after)
      by (by rewrite <- !(assoc_L (++))).
    by rewrite drop_app_length, take_app_length.
Qed.

(** X9.  Open on an opening run of at least two '$' whose rest of the line has
    no closing fence opens a multi-line block: the state is NoChildren, the
    context records the entry column as the indent, and the node holds one
    span from the end of the run to the end of the segment when the rest is
    not blank, and no span when it is blank. *)
Theorem Open_multi_line (key : parser.ContextKey) (reader : text.Reader)
    (pc : parser.Context) (done : list byte) (n : nat) (rest : list byte) :
  text.peekedLine reader = done ++ replicate n "$"%byte ++ rest ->
  parser.BlockOffset pc = len done -> (2 <= n)%nat ->
  head rest <> Some "$"%byte -> no_fence rest ->
  let segment := text.peekedSegment reader in
  Open key reader pc
  = Ok (Some (if util.IsBlank rest then NewMathBlock
              else mkMathBlock [text.NewSegment (text.Start segment + (len done + Z.of_nat n))
                                  (text.Stop segment)]),
        parser.NoChildren,
        parser.Set_ key (Some (parser.MathBlockData (mkMathBlockData (len done)))) pc).
Proof.
  intros Hline Hpos Hn Hhead Hno segment.
  destruct (Open_at_fence key reader pc done n rest Hline Hpos Hn (head_fence_run _ Hhead))
    as [(p & Hp & _) | [_ ->]]; [by destruct (Hno p)|done].
Qed.

(** X10.  A single '$' at the entry column opens nothing: Open refuses the
    line and leaves the context as it is. *)
Theorem Open_lone_dollar_refused (key : parser.ContextKey) (reader : text.Reader)
    (pc : parser.Context) (done rest : list byte) :
  text.peekedLine reader = done ++ "$"%byte :: rest ->
  parser.BlockOffset pc = len done ->
  head rest <> Some "$"%byte ->
  Open key reader pc = Ok (None, parser.NoChildren, pc).
Proof.
  intros Hline Hpos Hhead.
  by rewrite (Open_at_run key reader pc done 1 rest Hline Hpos (Nat.le_refl 1)
                (head_fence_run _ Hhead)).
Qed.

(** X11.  Open returns for every entry column from -1 on, whatever the line,
    and panics on a column below -1: the test for -1 is the only guard
    against a negative index. *)
Theorem Open_returns_iff (key : parser.ContextKey) (reader : text.Reader)
    (pc : parser.Context) :
  (-1 <= parser.BlockOffset pc -> exists outcome, Open key reader pc = Ok outcome) /\
  (parser.BlockOffset pc < -1 -> Open key reader pc = Panic).
Proof.
  destruct (Open_shape key reader pc)
    as [[Hlow HPanic] | [Hrefuse | (done & n & rest & Hline & Hpos & Hn & Hrest)]].
  - split; [lia|done].
  - split; [eauto|]. intros Hlow. unfold Open, text.PeekLine, index in Hrefuse |- *.
    pose proof (len_nonneg (text.peekedLine reader)).
    destruct (Z.eqb_spec (parser.BlockOffset pc) (-1)); [lia|].
    destruct (Z.leb_spec (len (text.peekedLine reader)) (parser.BlockOffset pc)); [lia|].
    destruct (Z.leb_spec 0 (parser.BlockOffset pc)); [lia|]. done.
  - split; [|pose proof (len_nonneg done); lia]. intros _.
    destruct (Open_at_fence key reader pc done n rest Hline Hpos Hn Hrest)
      as [(p & _ & _ & ->) | [_ ->]]; eauto.
Qed.

(** X12.  A node that Open returns is of one of two kinds.  A complete node
    (Close) holds exactly one span, which is not empty, and the context is
    untouched: Open never returns a complete node without payload.  An open
    node holds at most one span and the context holds the entry column as the
    indent of the block. *)
Theorem Open_node_outcomes (key : parser.ContextKey) (reader : text.Reader)
    (pc pc' : parser.Context) (node : MathBlock) (state : parser.State) :
  Open key reader pc = Ok (Some node, state, pc') ->
  (is_closed state = true /\ pc' = pc /\
   exists span, Lines node = [span] /\ text.Start span < text.Stop span) \/
  (is_closed state = false /\ (length (Lines node) <= 1)%nat /\
   parser.Get key pc'
   = Some (parser.MathBlockData (mkMathBlockData (parser.BlockOffset pc)))).
Proof.
  destruct (Open_shape key reader pc)
    as [[_ ->] | [-> | (seen & n & rest & Hline & Hpos & Hn & Hrest)]]; [done..|].
  destruct (Open_at_fence key reader pc seen n rest Hline Hpos Hn Hrest)
    as [(p & _ & Hp & ->) | [_ ->]]; intros [= <- <- <-].
  - left. split; [reflexivity|]. split; [done|]. eexists. split; [reflexivity|]. simpl. lia.
  - right. split; [reflexivity|]. split; [by destruct (util.IsBlank rest); simpl; lia|].
    rewrite Hpos. apply Get_Set_value.
Qed.

(** X13.  Open changes nothing in the context but the entry under its own
    key: the entry column and the entries of all other keys are the ones it
    received, and when it returns no node the whole context is. *)
Theorem Open_context_effect (key : parser.ContextKey) (reader : text.Reader)
    (pc pc' : parser.Context) (opened : option MathBlock) (state : parser.State) :
  Open key reader pc = Ok (opened, state, pc') ->
  parser.BlockOffset pc' = parser.BlockOffset pc /\
  (forall other, other <> key -> parser.Get other pc' = parser.Get other pc) /\
  (opened = None -> pc' = pc).
Proof.
  destruct (Open_shape key reader pc)
    as [[_ ->] | [-> | (seen & n & rest & Hline & Hpos & Hn & Hrest)]];
    [done|by intros [= <- <- <-]|].
  destruct (Open_at_fence key reader pc seen n rest Hline Hpos Hn Hrest)
    as [(p & _ & Hp & ->) | [_ ->]]; intros [= <- <- <-]; [done|].
  split; [done|]. split; [|done].
  intros other Hother. unfold parser.Get, parser.Set_. simpl.
  by apply lookup_insert_ne.
Qed.

Lemma Close_absent (key : parser.ContextKey) (node : MathBlock) (reader : text.Reader)
    (pc : parser.Context) :
  parser.Get key pc = None -> Close key node reader pc = pc.
Proof.
  destruct pc as [col store]. unfold parser.Get, Close, parser.Set_. simpl.
  intros Hget. f_equal. by apply delete_id.
Qed.

(** X14.  Close undoes what Open did to the context: when the context holds
    no state before Open, the context after Open and Close is the one before
    Open, whether Open refused, returned a complete node or opened a block. *)
Theorem Open_Close_round_trip (key : parser.ContextKey) (reader reader' : text.Reader)
    (pc pc' : parser.Context) (opened : option MathBlock) (state : parser.State)
    (node : MathBlock) :
  parser.Get key pc = None ->
  Open key reader pc = Ok (opened, state, pc') ->
  Close key node reader' pc' = pc.
Proof.
  intros Hget.
  destruct (Open_shape key reader pc)
    as [[_ ->] | [-> | (seen & n & rest & Hline & Hpos & Hn & Hrest)]];
    [done|intros [= <- <- <-]; by apply Close_absent|].
  destruct (Open_at_fence key reader pc seen n rest Hline Hpos Hn Hrest)
    as [(p & _ & Hp & ->) | [_ ->]]; intros [= <- <- <-]; [by apply Close_absent|].
  destruct pc as [col store]. unfold parser.Get in Hget. simpl in Hget.
  unfold Close, parser.Set_. simpl. f_equal. by apply delete_insert_id.
Qed.

(** X15.  A span that Open appends lies inside the segment of the line: it
    starts at or after the start of the segment, does not end before it
    starts, ends at or before the end of the segment, and has no padding.  The
    segment is that of the peeked line, without padding. *)
Theorem Open_span_within_segment (key : parser.ContextKey) (reader : text.Reader)
    (pc pc' : parser.Context) (node : MathBlock) (state : parser.State) :
  len (text.peekedLine reader)
  <= text.Stop (text.peekedSegment reader) - text.Start (text.peekedSegment reader) ->
  Open key reader pc = Ok (Some node, state, pc') ->
  Forall (span_within (text.peekedSegment reader)) (Lines node).
Proof.
  intros Hlen.
  destruct (Open_shape key reader pc)
    as [[_ ->] | [-> | (seen & n & rest & Hline & Hpos & Hn & Hrest)]]; [done..|].
  assert (Hsum : len (text.peekedLine reader) = len seen + Z.of_nat n + len rest).
  { rewrite Hline, !len_app. unfold len at 2. rewrite length_replicate. lia. }
  pose proof (len_nonneg seen). pose proof (len_nonneg rest).
  destruct (Open_at_fence key reader pc seen n rest Hline Hpos Hn Hrest)
    as [(p & Hfence & Hp & ->) | [_ ->]]; intros [= <- <- <-].
  - pose proof (fence_at_inside _ _ Hfence).
    repeat constructor; simpl; lia.
  - destruct (util.IsBlank rest); repeat constructor; simpl; lia.
Qed.

(** ** Further properties: the lines of a block opened at column 0 *)

Lemma DedentPosition_width_0 (bs : list byte) (currentPos : Z) :
  util.DedentPosition bs currentPos 0 = (0, 0).
Proof. reflexivity. Qed.

(** Lines without a closing fence pass through Continue one by one and leave
    one span each, the span of the whole line. *)
Lemma continue_lines_contents (key : parser.ContextKey) (data : mathBlockData)
    (pc : parser.Context) (contents following : list text.Reader) (spans : list text.Segment) :
  parser.Get key pc = Some (parser.MathBlockData data) -> indent data = 0 ->
  Forall (fun reader => no_fence (text.peekedLine reader)) contents ->
  continue_lines key (mkMathBlock spans) pc (contents ++ following)
  = continue_lines key (mkMathBlock (spans ++ map line_span contents)) pc following.
Proof.
  intros Hget Hindent. revert spans.
  induction contents as [|reader contents IH]; intros spans Hall; simpl.
  - by rewrite app_nil_r.
  - apply Forall_cons in Hall as [Hreader Hall].
    rewrite (Continue_no_fence key _ reader pc data 0 0 Hget Hreader)
      by (rewrite Hindent; apply DedentPosition_width_0).
    rewrite bind_Ok. cbv iota beta.
    change (is_closed (Z.lor parser.Continue parser.NoChildren)) with false. cbv iota.
    unfold Append. simpl Lines. rewrite Z.add_0_r.
    rewrite IH by done. by rewrite <- (assoc_L (++)).
Qed.



(** X17.  A block opened at column 0 does not end by itself.  With the state
    of the block (indent 0) in the context: when no line has a closing fence,
    every line is consumed and leaves the span of the whole line, and the
    node at the end of the input holds them all after the spans it had. *)
Theorem lines_without_closing_fence (key : parser.ContextKey) (node : MathBlock)
    (pc : parser.Context) (contents : list text.Reader) :
  parser.Get key pc = Some (parser.MathBlockData (mkMathBlockData 0)) ->
  Forall (fun reader => no_fence (text.peekedLine reader)) contents ->
  continue_lines key node pc contents
  = Ok (mkMathBlock (Lines node ++ map line_span contents)).
Proof.
  intros Hget Hcontents. destruct node as [spans].
  rewrite <- (app_nil_r contents) at 1.
  by rewrite (continue_lines_contents key (mkMathBlockData 0)).
Qed.

(** ** The properties at concrete inputs *)

(** "$$x+y$$" at the start of the source: the span reads "x+y". *)
Lemma Open_same_line_payload_witness :
  exists span,
    Open 1%positive (reader_at (bytes "$$x+y$$") 0) (parser.mkContext 0 ∅)
    = Ok (Some (mkMathBlock [span]), parser.Close, parser.mkContext 0 ∅)
    /\ text.Value span (bytes "$$x+y$$") = bytes "x+y".
Proof.
  apply (Open_same_line_payload 1%positive [] (bytes "x+y") [] ∅); simpl; discriminate.
Defined.

(** The regression input "*foo\n  ": the first line entered at column 0, the
    blank second line entered at no column (-1) or at its end. *)
Lemma Open_not_applicable_witness :
  Open 1%positive (reader_at (bytes "*foo" ++ [x0a]) 0) (parser.mkContext 0 ∅)
  = Ok (None, parser.NoChildren, parser.mkContext 0 ∅)
  /\ Open 1%positive (reader_at (bytes "  ") 5) (parser.mkContext (-1) ∅)
     = Ok (None, parser.NoChildren, parser.mkContext (-1) ∅)
  /\ Open 1%positive (reader_at (bytes "  ") 5) (parser.mkContext 2 ∅)
     = Ok (None, parser.NoChildren, parser.mkContext 2 ∅).
Proof.
  split; [|split]; apply Open_not_applicable; simpl.
  - right. right. exists "*"%byte. split; [reflexivity|discriminate].
  - left. reflexivity.
  - right. left. vm_compute. discriminate.
Defined.

Lemma Continue_state_absent_witness :
  parser.Get 1%positive (parser.mkContext 0 ∅) = None
  /\ Continue 1%positive (mkMathBlock [text.NewSegment 2 5]) (reader_at (bytes "a+b") 8)
       (parser.mkContext 0 ∅)
     = Ok (parser.Close, mkMathBlock [text.NewSegment 2 5], reader_at (bytes "a+b") 8,
           parser.mkContext 0 ∅).
Proof.
  split; [reflexivity|]. apply Continue_state_absent. reflexivity.
Defined.


(** A closing fence behind four columns of indentation: the start-of-line test
    does not apply, the scan finds the fence at 4, and the four spaces before
    it become a span. *)
Lemma Continue_rescan_closes_witness :
  closes_at_start (bytes "    $$") = Ok false
  /\ util.DedentPosition (bytes "    $$") 0 0 = (0, 0)
  /\ Continue 1%positive (mkMathBlock [text.NewSegment 3 6]) (reader_at (bytes "    $$") 7)
       (parser.mkContext 0 {[ 1%positive := parser.MathBlockData (mkMathBlockData 0) ]})
     = Ok (parser.Close, mkMathBlock [text.NewSegment 3 6; text.NewSegmentPadding 7 11 0],
           text.mkReader (bytes "    $$") (text.NewSegment 7 13) [text.ReqAdvance 6],
           parser.mkContext 0 {[ 1%positive := parser.MathBlockData (mkMathBlockData 0) ]}).
Proof.
  split; [reflexivity|]. split; [reflexivity|].
  apply (Continue_rescan_closes 1%positive (mkMathBlock [text.NewSegment 3 6])
           (reader_at (bytes "    $$") 7) _ (mkMathBlockData 0) 4 0 0); try reflexivity.
  exists (bytes "    "), 2%nat, []. repeat split; [lia|discriminate].
Defined.

(** The block "$$\n1+2\n$$\n" at the start of the source. *)
Lemma spans_exclude_opening_fence_witness :
  exists result,
    parse_block 1%positive (reader_at (bytes "$$" ++ [x0a]) 0)
      [reader_at (bytes "1+2" ++ [x0a]) 3; reader_at (bytes "$$" ++ [x0a]) 7]
      (parser.mkContext 0 ∅) = Ok result /\
    forall node, result = Some node ->
      exists i,
        skip_fence (bytes "$$" ++ [x0a]) 0 = Ok i /\ spans_from (0 + i - 0) node.
Proof.
  apply (spans_exclude_opening_fence 1%positive (reader_at (bytes "$$" ++ [x0a]) 0)
           [reader_at (bytes "1+2" ++ [x0a]) 3; reader_at (bytes "$$" ++ [x0a]) 7]
           (parser.mkContext 0 ∅)); simpl; try lia.
  repeat constructor; vm_compute; discriminate.
Defined.

Lemma fence_scan_terminates_witness :
  exists p,
    (p = -1 \/ 0 <= p < len (bytes "a$$b$$")) /\
    forall fuel, (length (bytes "a$$b$$") < fuel)%nat ->
      Open_scan fuel (bytes "a$$b$$") 0 = Ok p /\ Continue_scan fuel (bytes "a$$b$$") 0 = Ok p.
Proof. exact (proj1 (fence_scan_terminates (bytes "a$$b$$"))). Defined.

Lemma Close_clears_state_witness :
  parser.Get 1%positive
    (Close 1%positive NewMathBlock (reader_at (bytes "$$") 0)
       (parser.mkContext 0 {[ 1%positive := parser.MathBlockData (mkMathBlockData 2) ]}))
  = None.
Proof. exact (proj1 (Close_clears_state 1%positive _ _ _)). Defined.

(** ** The further properties at concrete inputs *)

(** The last line of a matrix block closes it. *)
Lemma Continue_closes_iff_fence_witness :
  exists state node' reader',
    Continue 1%positive NewMathBlock (reader_at (bytes "\end{vmatrix}$$" ++ [x0a]) 9)
      (parser.mkContext 0 {[ 1%positive := parser.MathBlockData (mkMathBlockData 0) ]})
    = Ok (state, node', reader',
          parser.mkContext 0 {[ 1%positive := parser.MathBlockData (mkMathBlockData 0) ]})
    /\ (is_closed state = true
        <-> exists p, fence_at (bytes "\end{vmatrix}$$" ++ [x0a]) p).
Proof.
  apply (Continue_closes_iff_fence 1%positive NewMathBlock
           (reader_at (bytes "\end{vmatrix}$$" ++ [x0a]) 9) _ (mkMathBlockData 0)).
  reflexivity.
Defined.

(** The content line "1+2\n" of a block opened at column 0. *)
Lemma Continue_appends_line_witness :
  Continue 1%positive NewMathBlock (reader_at (bytes "1+2" ++ [x0a]) 3)
    (parser.mkContext 0 {[ 1%positive := parser.MathBlockData (mkMathBlockData 0) ]})
  = Ok (Z.lor parser.Continue parser.NoChildren,
        Append NewMathBlock (text.NewSegmentPadding (3 + 0) 7 0),
        text.mkReader (bytes "1+2" ++ [x0a]) (text.NewSegment 3 7)
          [text.ReqAdvanceAndSetPadding (7 - 3 - 0 - 1) 0],
        parser.mkContext 0 {[ 1%positive := parser.MathBlockData (mkMathBlockData 0) ]}).
Proof.
  apply (Continue_appends_line 1%positive NewMathBlock (reader_at (bytes "1+2" ++ [x0a]) 3)
           _ (mkMathBlockData 0) 0 0).
  - reflexivity.
  - apply scan_no_fence. reflexivity.
  - reflexivity.
Defined.

(** A line of two spaces and a line feed inside a block. *)
Lemma Continue_blank_line_continues_witness :
  exists span reader',
    Continue 1%positive NewMathBlock (reader_at (bytes "  " ++ [x0a]) 3)
      (parser.mkContext 0 {[ 1%positive := parser.MathBlockData (mkMathBlockData 0) ]})
    = Ok (Z.lor parser.Continue parser.NoChildren, Append NewMathBlock span, reader',
          parser.mkContext 0 {[ 1%positive := parser.MathBlockData (mkMathBlockData 0) ]})
    /\ is_closed (Z.lor parser.Continue parser.NoChildren) = false
    /\ text.Stop span = text.Stop (text.peekedSegment (reader_at (bytes "  " ++ [x0a]) 3)).
Proof.
  apply (Continue_blank_line_continues 1%positive NewMathBlock
           (reader_at (bytes "  " ++ [x0a]) 3) _ (mkMathBlockData 0)); reflexivity.
Defined.

Lemma Continue_append_only_witness :
  parser.mkContext 0 {[ 1%positive := parser.MathBlockData (mkMathBlockData 0) ]}
  = parser.mkContext 0 {[ 1%positive := parser.MathBlockData (mkMathBlockData 0) ]} /\
  (exists spans,
     [text.NewSegment 0 2; text.NewSegmentPadding 7 8 0] = [text.NewSegment 0 2] ++ spans /\
     (length spans <= 1)%nat) /\
  bytes "a$$" = bytes "a$$" /\
  text.NewSegment 7 10 = text.NewSegment 7 10 /\
  (exists requests, [text.ReqAdvance 3] = [] ++ requests /\ (length requests <= 1)%nat).
Proof.
  apply (Continue_append_only 1%positive (mkMathBlock [text.NewSegment 0 2])
           (mkMathBlock [text.NewSegment 0 2; text.NewSegmentPadding 7 8 0])
           (reader_at (bytes "a$$") 7)
           (text.mkReader (bytes "a$$") (text.NewSegment 7 10) [text.ReqAdvance 3])
           (parser.mkContext 0 {[ 1%positive := parser.MathBlockData (mkMathBlockData 0) ]})
           _ parser.Close).
  reflexivity.
Defined.

(** A value of another type under the key. *)
Lemma Continue_returns_iff_witness :
  Continue 1%positive NewMathBlock (reader_at (bytes "x") 0)
    (parser.mkContext 0 {[ 1%positive := parser.Foreign 7 ]}) = Panic.
Proof.
  apply (proj2 (Continue_returns_iff 1%positive NewMathBlock (reader_at (bytes "x") 0)
                  (parser.mkContext 0 {[ 1%positive := parser.Foreign 7 ]})) 7%nat).
  reflexivity.
Defined.

Lemma Continue_span_within_segment_witness :
  Forall (span_within (text.NewSegment 7 10)) [text.NewSegmentPadding 7 8 0].
Proof.
  apply (Continue_span_within_segment 1%positive (mkMathBlock [text.NewSegment 0 2])
           (mkMathBlock [text.NewSegment 0 2; text.NewSegmentPadding 7 8 0])
           (reader_at (bytes "a$$") 7)
           (text.mkReader (bytes "a$$") (text.NewSegment 7 10) [text.ReqAdvance 3])
           (parser.mkContext 0 {[ 1%positive := parser.MathBlockData (mkMathBlockData 0) ]})
           (parser.mkContext 0 {[ 1%positive := parser.MathBlockData (mkMathBlockData 0) ]})
           parser.Close).
  - vm_compute. discriminate.
  - reflexivity.
  - reflexivity.
Defined.

(** The line "  $$$x+y$$ \n" entered at column 2, between other lines. *)
Lemma Open_same_line_anywhere_witness :
  Open 1%positive
    (reader_at (bytes "  $$$x+y$$ " ++ [x0a]) 3) (parser.mkContext 2 ∅)
  = Ok (Some (mkMathBlock [text.NewSegment 8 11]), parser.Close, parser.mkContext 2 ∅)
  /\ text.Value (text.NewSegment 8 11)
       ((bytes "ab" ++ [x0a]) ++ (bytes "  $$$x+y$$ " ++ [x0a]) ++ bytes "zz")
     = bytes "x+y".
Proof.
  apply (Open_same_line_anywhere 1%positive (bytes "ab" ++ [x0a]) (bytes "  ")
           (bytes "x+y") (bytes " " ++ [x0a]) (bytes "zz") 3 2 ∅);
    first [lia | discriminate | reflexivity].
Defined.

(** The opening line of a matrix block. *)
Lemma Open_multi_line_witness :
  Open 1%positive (reader_at (bytes "$$\begin{vmatrix}" ++ [x0a]) 0) (parser.mkContext 0 ∅)
  = Ok (Some (mkMathBlock [text.NewSegment 2 18]), parser.NoChildren,
        parser.Set_ 1%positive (Some (parser.MathBlockData (mkMathBlockData 0)))
          (parser.mkContext 0 ∅)).
Proof.
  apply (Open_multi_line 1%positive (reader_at (bytes "$$\begin{vmatrix}" ++ [x0a]) 0)
           (parser.mkContext 0 ∅) [] 2 (bytes "\begin{vmatrix}" ++ [x0a]));
    first [reflexivity | lia | discriminate | idtac].
  apply scan_no_fence. reflexivity.
Defined.

(** The inline form "$1+2$" is left to the inline parser. *)
Lemma Open_lone_dollar_refused_witness :
  Open 1%positive (reader_at (bytes "$1+2$") 0) (parser.mkContext 0 ∅)
  = Ok (None, parser.NoChildren, parser.mkContext 0 ∅).
Proof.
  apply (Open_lone_dollar_refused 1%positive (reader_at (bytes "$1+2$") 0)
           (parser.mkContext 0 ∅) [] (bytes "1+2$")); first [reflexivity | discriminate].
Defined.

Lemma Open_returns_iff_witness :
  (exists outcome, Open 1%positive (reader_at (bytes "$$") 0) (parser.mkContext 0 ∅)
                   = Ok outcome)
  /\ Open 1%positive (reader_at (bytes "$$") 0) (parser.mkContext (-2) ∅) = Panic.
Proof.
  split.
  - apply (proj1 (Open_returns_iff 1%positive (reader_at (bytes "$$") 0)
                    (parser.mkContext 0 ∅))). simpl. lia.
  - apply (proj2 (Open_returns_iff 1%positive (reader_at (bytes "$$") 0)
                    (parser.mkContext (-2) ∅))). simpl. lia.
Defined.

Lemma Open_node_outcomes_witness :
  (is_closed parser.Close = true /\ parser.mkContext 0 ∅ = parser.mkContext 0 ∅ /\
   exists span, [text.NewSegment 2 5] = [span] /\ text.Start span < text.Stop span) \/
  (is_closed parser.Close = false /\ (length [text.NewSegment 2 5] <= 1)%nat /\
   parser.Get 1%positive (parser.mkContext 0 ∅)
   = Some (parser.MathBlockData (mkMathBlockData 0))).
Proof.
  apply (Open_node_outcomes 1%positive (reader_at (bytes "$$x+y$$") 0)
           (parser.mkContext 0 ∅) (parser.mkContext 0 ∅)
           (mkMathBlock [text.NewSegment 2 5]) parser.Close).
  reflexivity.
Defined.

Lemma Open_context_effect_witness :
  parser.Get 2%positive
    (parser.Set_ 1%positive (Some (parser.MathBlockData (mkMathBlockData 0)))
       (parser.mkContext 0 {[ 2%positive := parser.Foreign 5 ]}))
  = parser.Get 2%positive (parser.mkContext 0 {[ 2%positive := parser.Foreign 5 ]}).
Proof.
  apply (Open_context_effect 1%positive (reader_at (bytes "$$" ++ [x0a]) 0)
           (parser.mkContext 0 {[ 2%positive := parser.Foreign 5 ]})
           _ (Some NewMathBlock) parser.NoChildren).
  - reflexivity.
  - discriminate.
Defined.

Lemma Open_Close_round_trip_witness :
  Close 1%positive NewMathBlock (reader_at (bytes "$$" ++ [x0a]) 7)
    (parser.Set_ 1%positive (Some (parser.MathBlockData (mkMathBlockData 0)))
       (parser.mkContext 0 {[ 2%positive := parser.Foreign 5 ]}))
  = parser.mkContext 0 {[ 2%positive := parser.Foreign 5 ]}.
Proof.
  apply (Open_Close_round_trip 1%positive (reader_at (bytes "$$" ++ [x0a]) 0)
           (reader_at (bytes "$$" ++ [x0a]) 7)
           (parser.mkContext 0 {[ 2%positive := parser.Foreign 5 ]})
           _ (Some NewMathBlock) parser.NoChildren NewMathBlock); reflexivity.
Defined.

Lemma Open_span_within_segment_witness :
  Forall (span_within (text.NewSegment 0 7)) [text.NewSegment 2 5].
Proof.
  apply (Open_span_within_segment 1%positive (reader_at (bytes "$$x+y$$") 0)
           (parser.mkContext 0 ∅) (parser.mkContext 0 ∅)
           (mkMathBlock [text.NewSegment 2 5]) parser.Close).
  - vm_compute. discriminate.
  - reflexivity.
Defined.


(** The lines "1+2\n" and "\n" after the opening line, then the end of the
    input. *)
Lemma lines_without_closing_fence_witness :
  continue_lines 1%positive NewMathBlock
    (parser.mkContext 0 {[ 1%positive := parser.MathBlockData (mkMathBlockData 0) ]})
    [reader_at (bytes "1+2" ++ [x0a]) 3; reader_at [x0a] 7]
  = Ok (mkMathBlock
      ([] ++ map line_span [reader_at (bytes "1+2" ++ [x0a]) 3; reader_at [x0a] 7])).
Proof.
  apply (lines_without_closing_fence 1%positive NewMathBlock
           (parser.mkContext 0 {[ 1%positive := parser.MathBlockData (mkMathBlockData 0) ]})
           [reader_at (bytes "1+2" ++ [x0a]) 3; reader_at [x0a] 7]).
  - reflexivity.
  - repeat constructor; apply scan_no_fence; reflexivity.
Defined.
